(** * appnlib.core.graph: records to RDF statements and back

    A shallow embedding of [src/appnlib/core/graph.py].  The module turns a
    record instance into a set of RDF statements held by an rdflib [Graph]
    ([from_struct]) and folds statements back into attribute mappings and
    records ([to_builtin], [to_struct], [sub_graph]).

    The rdflib container, its [Describer] helper and the msgspec codec are
    external collaborators: they are modelled here at the interface the
    module uses, each with a comment naming what it stands for.  The
    functions of [graph.py] itself are transcribed statement by statement
    into a small state-and-exception monad over a heap of graph objects. *)

From stdpp Require Import gmap strings list fin_maps pretty.

Open Scope string_scope.
Open Scope list_scope.
Open Scope nat_scope.

Set Warnings "-register-all".

(** ** RDF terms *)

(** A Python scalar carried by a literal or held by a record field. *)
Inductive scalar :=
  | SStr (s : string)
  | SInt (z : Z).

(** rdflib terms.  A [URIRef] and a [BNode] with the same text are different
    terms: rdflib compares the term class before the text.  A literal is
    kept as the Python value it was built from plus its datatype tag, and two
    literals are the same term when value and tag agree.  rdflib itself
    compares the lexical form and the tag, after normalising the lexical form
    of the datatypes it knows: the two notions agree on the texts tagged
    [xsd:string] (see [plain]), and the statements that depend on the identity
    of literals are stated for those. *)
Inductive node :=
  | URIRef (u : string)
  | BNode (b : string)
  | Literal (v : scalar) (datatype : option string).

Global Instance scalar_eq_dec : EqDecision scalar.
Proof. solve_decision. Defined.

Global Instance node_eq_dec : EqDecision node.
Proof. solve_decision. Defined.

Definition scalar_to_sum (v : scalar) : string + Z :=
  match v with SStr s => inl s | SInt z => inr z end.

Definition scalar_of_sum (x : string + Z) : scalar :=
  match x with inl s => SStr s | inr z => SInt z end.

Global Instance scalar_countable : Countable scalar.
Proof.
  apply (inj_countable' scalar_to_sum scalar_of_sum).
  intros []; reflexivity.
Defined.

Definition node_to_sum (n : node) : string + string + scalar * option string :=
  match n with
  | URIRef u => inl (inl u)
  | BNode b => inl (inr b)
  | Literal v d => inr (v, d)
  end.

Definition node_of_sum (x : string + string + scalar * option string) : node :=
  match x with
  | inl (inl u) => URIRef u
  | inl (inr b) => BNode b
  | inr (v, d) => Literal v d
  end.

Global Instance node_countable : Countable node.
Proof.
  apply (inj_countable' node_to_sum node_of_sum).
  intros []; reflexivity.
Defined.

(** [str(x)] on a scalar and on a term: the text of a reference, the lexical
    form of a literal. *)
Definition scalar_str (v : scalar) : string :=
  match v with SStr s => s | SInt z => pretty z end.

Definition node_str (n : node) : string :=
  match n with
  | URIRef u => u
  | BNode b => b
  | Literal v _ => scalar_str v
  end.

(** [RDF.type]. *)
Definition RDF_type : node :=
  URIRef "http://www.w3.org/1999/02/22-rdf-syntax-ns#type".

(** ** The triple store of an rdflib [Graph]

    Statements are kept in insertion order; [store_add] is a no-op on a
    statement already present (set semantics).  A pattern position holding
    [None] is a wildcard, as in [Graph.triples]. *)

Definition triple : Type := node * node * node.
Definition pattern : Type := option node * option node * option node.
Abbreviation store := (list triple).

Definition subject_of (t : triple) : node := t.1.1.
Definition predicate_of (t : triple) : node := t.1.2.
Definition object_of (t : triple) : node := t.2.

Definition term_matches (q : option node) (n : node) : bool :=
  match q with
  | None => true
  | Some m => bool_decide (m = n)
  end.

Definition matches (q : pattern) (t : triple) : bool :=
  term_matches q.1.1 (subject_of t)
  && term_matches q.1.2 (predicate_of t)
  && term_matches q.2 (object_of t).

(** [Graph.triples(pattern)]. *)
Definition store_triples (q : pattern) (g : store) : list triple :=
  filter (λ t, matches q t) g.

(** [pattern in graph]. *)
Definition store_contains (q : pattern) (g : store) : bool :=
  match store_triples q g with
  | [] => false
  | _ :: _ => true
  end.

(** [Graph.add(triple)]. *)
Definition store_add (t : triple) (g : store) : store :=
  if bool_decide (t ∈ g) then g else g ++ [t].

(** rdflib's [unique=True]: keep the first occurrence of every item. *)
Fixpoint unique_from {A} `{EqDecision A} (seen l : list A) : list A :=
  match l with
  | [] => []
  | x :: l' =>
      if bool_decide (x ∈ seen) then unique_from seen l'
      else x :: unique_from (x :: seen) l'
  end.

Definition unique {A} `{EqDecision A} (l : list A) : list A := unique_from [] l.

(** [Graph.subjects(predicate, object)]. *)
Definition store_subjects (p o : option node) (g : store) : list node :=
  subject_of <$> store_triples (None, p, o) g.

(** [Graph.predicate_objects(subject, unique=True)]. *)
Definition store_predicate_objects (s : node) (g : store) : list (node * node) :=
  unique ((λ t, (predicate_of t, object_of t)) <$> store_triples (Some s, None, None) g).

(** ** Exceptions and the heap of graph objects *)

Inductive exn_class :=
  | ValueError
  | KeyError
  | AttributeError
  | IndexError
  | TypeError
  | AnnotationError
  | MissingSchema
  | ValidationError.

Global Instance exn_class_eq_dec : EqDecision exn_class.
Proof. solve_decision. Defined.

(** A raised exception: its class and its message. *)
Record exn := Exn { exn_kind : exn_class; exn_msg : string }.

Global Instance exn_eq_dec : EqDecision exn.
Proof. solve_decision. Defined.

(** A reference to a [Graph] object. *)
Abbreviation graph_ref := nat.

(** The world a call runs in: every live [Graph] object, and the supply of
    blank-node names ([BNode()] draws the next one). *)
Record world := World { graphs : gmap graph_ref store; bnodes : nat }.

(** The statements of the graph behind a reference. *)
Definition triples_of (w : world) (g : graph_ref) : store :=
  default [] (graphs w !! g).

(** Computations: they read and update the world, and either return a value
    or raise.  What was written before a raise stays written. *)
Definition M (A : Type) : Type := world → (exn + A) * world.

Definition ret {A} (x : A) : M A := λ w, (inr x, w).

Definition raise {A} (c : exn_class) (msg : string) : M A :=
  λ w, (inl (Exn c msg), w).

Definition bind {A B} (c : M A) (k : A → M B) : M B :=
  λ w, match c w with
       | (inl e, w') => (inl e, w')
       | (inr x, w') => k x w'
       end.

Declare Scope py_scope.
Delimit Scope py_scope with py.
Notation "x <- c1 ;; c2" := (bind c1 (λ x, c2))
  (at level 100, c1 at next level, right associativity) : py_scope.
Notation "c1 ;; c2" := (bind c1 (λ _, c2))
  (at level 100, right associativity) : py_scope.
Open Scope py_scope.

(** A pure step that may raise, run inside a computation. *)
Definition lift {A} (r : exn + A) : M A :=
  λ w, (r, w).

(** [for x in l: f(x)]. *)
Definition for_each {A} (f : A → M unit) : list A → M unit :=
  fix go l :=
    match l with
    | [] => ret tt
    | x :: l' => f x ;; go l'
    end.

(** A loop that appends one result per item to a list. *)
Definition for_collect {A B} (f : A → M B) : list A → M (list B) :=
  fix go l :=
    match l with
    | [] => ret []
    | x :: l' => y <- f x ;; ys <- go l' ;; ret (y :: ys)
    end.

(** The same loop over a step that reads no state. *)
Fixpoint collect {A B} (f : A → exn + B) (l : list A) : exn + list B :=
  match l with
  | [] => inr []
  | x :: l' =>
      match f x with
      | inl e => inl e
      | inr y =>
          match collect f l' with
          | inl e => inl e
          | inr ys => inr (y :: ys)
          end
      end
  end.

(** [Graph()]: a new, empty graph object. *)
Definition Graph_new : M graph_ref :=
  λ w, let g := fresh (dom (graphs w)) in
       (inr g, World (<[g := []]> (graphs w)) (bnodes w)).

(** [graph.add(t)]. *)
Definition Graph_add (g : graph_ref) (t : triple) : M unit :=
  λ w, (inr tt, World (<[g := store_add t (triples_of w g)]> (graphs w)) (bnodes w)).

(** [q in graph]. *)
Definition Graph_contains (g : graph_ref) (q : pattern) : M bool :=
  λ w, (inr (store_contains q (triples_of w g)), w).

(** [graph.subjects(predicate=p, object=o)]. *)
Definition Graph_subjects (g : graph_ref) (p o : option node) : M (list node) :=
  λ w, (inr (store_subjects p o (triples_of w g)), w).

(** [graph.predicate_objects(s, unique=True)]. *)
Definition Graph_predicate_objects (g : graph_ref) (s : node) : M (list (node * node)) :=
  λ w, (inr (store_predicate_objects s (triples_of w g)), w).

(** [BNode()]. *)
Definition BNode_new : M node :=
  λ w, (inr (BNode ("N" +:+ pretty (bnodes w))), World (graphs w) (S (bnodes w))).

(** ** Python values, schemas and record instances *)

(** The values a record field holds: [None], a scalar, or a list of values.
    In this universe the lists are the values that have [__len__] and are not
    [str]; a text has [__len__] too but is a [str]. *)
Inductive pyval :=
  | PNone
  | PAtom (a : scalar)
  | PList (items : list pyval).

(** Python truthiness ([if x], [x or y]). *)
Definition truthy (v : pyval) : bool :=
  match v with
  | PNone => false
  | PAtom (SStr s) => negb (bool_decide (s = ""))
  | PAtom (SInt z) => negb (bool_decide (z = 0%Z))
  | PList items => match items with [] => false | _ :: _ => true end
  end.

(** [x is not None]. *)
Definition is_not_None (v : pyval) : bool :=
  match v with PNone => false | _ => true end.

(** [hasattr(x, "__len__")] and [isinstance(x, str)]. *)
Definition has_len (v : pyval) : bool :=
  match v with
  | PList _ | PAtom (SStr _) => true
  | _ => false
  end.

Definition is_str (v : pyval) : bool :=
  match v with
  | PAtom (SStr _) => true
  | _ => false
  end.

(** Python's [repr] and [str] (string escapes are not rendered). *)
Fixpoint py_repr (v : pyval) : string :=
  match v with
  | PNone => "None"
  | PAtom (SStr s) => "'" +:+ s +:+ "'"
  | PAtom (SInt z) => pretty z
  | PList items => "[" +:+ String.concat ", " (map py_repr items) +:+ "]"
  end.

Definition py_str (v : pyval) : string :=
  match v with
  | PAtom a => scalar_str a
  | _ => py_repr v
  end.

(** An identifier argument ([URIRef | str | None]): a [URIRef] is a [str],
    so both are given by their text.  It is truthy when present and not
    empty. *)
Definition truthy_id (identifier : option string) : bool :=
  match identifier with
  | None => false
  | Some s => negb (bool_decide (s = ""))
  end.

(** Modelled from the spec: [appnlib.core.utils.make_ref] is not part of
    [graph.py]; it normalizes an identifier to the graph's reference kind,
    a URI reference with the identifier's text. *)
Definition make_ref (identifier : string) : node := URIRef identifier.

(** [FieldInfo.range]: the relation marker [IDRef], or a literal datatype. *)
Inductive value_kind :=
  | IDRef
  | Datatype (d : string).

(** [appnlib.core.schema.FieldInfo], as [graph.py] reads it. *)
Record FieldInfo := {
  ref : node;
  range : value_kind;
  repeat : bool
}.

(** [appnlib.core.schema.Schema], as [graph.py] reads it: [__rdf_resource__],
    [attrs] and [ref_mapping] are looked up by key, [name_mapping] is
    iterated in declaration order.  A schema object is always truthy, so
    [if schema] and [schema is not None] agree and an optional schema is an
    [option]. *)
Record Schema := {
  rdf_resource : node;
  attrs : gmap string FieldInfo;
  name_mapping : list (string * FieldInfo);
  ref_mapping : gmap node string
}.

(** A record instance: its attributes (or keys) and, when it carries one,
    its [__schema__]. *)
Record struct := {
  st_attrs : gmap string pyval;
  st_schema : option Schema
}.

(** Modelled from the spec: [appnlib.core.utils.get_key_or_attribute] is not
    part of [graph.py]; it reads a named field off a mapping-like or
    attribute-like instance, giving [None] when the name is missing. *)
Definition get_key_or_attribute (name : string) (s : struct) : pyval :=
  default PNone (st_attrs s !! name).

(** Modelled from the spec: the same read with [raise_error_if_missing=True];
    a missing field is an error. *)
Definition get_key_or_attribute_strict (name : string) (s : struct) : M pyval :=
  match st_attrs s !! name with
  | Some v => ret v
  | None => raise KeyError name
  end.

(** ** rdflib's [Describer] *)

(** A describer writes statements about one subject into one graph. *)
Record Describer := {
  d_graph : graph_ref;
  d_about : node
}.

(** [rdflib.term.URIRef(x)] on a value that is not a term.  The constructor
    first looks for invalid characters with [c in x], which raises
    [TypeError] when [x] is an [int]; a text, and a list, pass and give the
    reference with the text [str(x)]. *)
Definition URIRef_new (r : pyval) : M node :=
  match r with
  | PAtom (SInt _) => raise TypeError "argument of type 'int' is not iterable"
  | _ => ret (URIRef (py_str r))
  end.

(** [rdflib.extras.describer.cast_identifier]: [ref or BNode()], made a
    [URIRef] when it is not a term already. *)
Definition cast_identifier (r : pyval) : M node :=
  if truthy r then URIRef_new r else BNode_new.

(** [Describer(graph=graph, about=about)]. *)
Definition Describer_new (graph : graph_ref) (about : pyval) : M Describer :=
  subject <- cast_identifier about ;;
  ret {| d_graph := graph; d_about := subject |}.

(** [describer.rdftype(t)]. *)
Definition rdftype (d : Describer) (t : node) : M unit :=
  Graph_add (d_graph d) (d_about d, RDF_type, t).

(** [describer.rel(p, o)]. *)
Definition rel (d : Describer) (p : node) (o : pyval) : M unit :=
  o' <- cast_identifier o ;;
  Graph_add (d_graph d) (d_about d, p, o').

(** [describer.value(p, v, datatype=dt)]. *)
Definition value (d : Describer) (p : node) (v : scalar) (dt : string) : M unit :=
  Graph_add (d_graph d) (d_about d, p, Literal v (Some dt)).

(** ** [graph.py] *)

(** [_describer_add_value] (lines 31-40).  [PNone] is [value is None]; a
    [PList] is the value with [__len__] that is not a [str] (see
    [collection_test]); an atom takes the [else] branch. *)
Fixpoint _describer_add_value (describer : Describer) (v : pyval) (info : FieldInfo)
    : M unit :=
  match v with
  | PNone => ret tt
  | PList items =>
      for_each (λ item, _describer_add_value describer item info) items
  | PAtom a =>
      match range info with
      | IDRef => rel describer (ref info) (PAtom a)
      | Datatype dt => value describer (ref info) a dt
      end
  end.

(** [_get_subjects] (lines 43-86). *)
Definition _get_subjects (graph : graph_ref) (identifier : option string)
    (schema : option Schema) : M (gset node) :=
  if truthy_id identifier then
    let identifier := make_ref (default "" identifier) in
    found <- Graph_contains graph (Some identifier, None, None) ;;
    if negb found then
      raise ValueError ("Identifier: " +:+ node_str identifier +:+ " not in graph")
    else
      match schema with
      | Some sch =>
          typed <- Graph_contains graph (Some identifier, Some RDF_type, Some (rdf_resource sch)) ;;
          if negb typed then
            raise ValueError
              ("Object identified by id: " +:+ node_str identifier
               +:+ " is not of type: " +:+ node_str (rdf_resource sch) +:+ " in graph")
          else ret {[ identifier ]}
      | None => ret {[ identifier ]}
      end
  else
    let resource := match schema with Some sch => Some (rdf_resource sch) | None => None end in
    items <- Graph_subjects graph (Some RDF_type) resource ;;
    ret (list_to_set ((λ item, URIRef (node_str item)) <$> items)).

(** The keys of an attribute mapping: a Python [str], or a term used as key.
    A term never equals a plain [str], so the two kinds never collide. *)
Inductive dkey :=
  | KStr (s : string)
  | KRef (n : node).

Global Instance dkey_eq_dec : EqDecision dkey.
Proof. solve_decision. Defined.

Definition dkey_to_sum (k : dkey) : string + node :=
  match k with KStr s => inl s | KRef n => inr n end.

Definition dkey_of_sum (x : string + node) : dkey :=
  match x with inl s => KStr s | inr n => KRef n end.

Global Instance dkey_countable : Countable dkey.
Proof.
  apply (inj_countable' dkey_to_sum dkey_of_sum).
  intros []; reflexivity.
Defined.

(** The values of an attribute mapping: a text, a term, or a Python list. *)
Inductive pyobj :=
  | OStr (s : string)
  | ONode (n : node)
  | OList (items : list pyobj).

(** [_update_attrs_from_stmt] (lines 89-118).  The dictionary is returned
    updated; every [raise] happens before the first write, so a call that
    raises leaves the dictionary as it was. *)
Definition _update_attrs_from_stmt (pred value : node) (attrs_ : gmap dkey pyobj)
    (schema : option Schema) : exn + gmap dkey pyobj :=
  if bool_decide (pred = RDF_type) then inr attrs_
  else
    match schema with
    | None =>
        match attrs_ !! KRef pred with
        | Some (OList items) => inr (<[KRef pred := OList (items ++ [ONode value])]> attrs_)
        | Some old => inr (<[KRef pred := OList ([old] ++ [ONode value])]> attrs_)
        | None => inr (<[KRef pred := ONode value]> attrs_)
        end
    | Some sch =>
        match ref_mapping sch !! pred with
        | None => inl (Exn KeyError (node_str pred))
        | Some pred_str =>
            match attrs sch !! pred_str with
            | None => inl (Exn KeyError pred_str)
            | Some info =>
                if repeat info then
                  match attrs_ !! KStr pred_str with
                  | Some (OList items) =>
                      inr (<[KStr pred_str := OList (items ++ [ONode value])]> attrs_)
                  | Some _ => inl (Exn AttributeError "append")
                  | None => inr (<[KStr pred_str := OList [ONode value]]> attrs_)
                  end
                else
                  match attrs_ !! KStr pred_str with
                  | Some _ =>
                      inl (Exn AnnotationError
                             ("Field: " +:+ pred_str
                              +:+ " not annotated with repeat, but receives collection like value"))
                  | None => inr (<[KStr pred_str := ONode value]> attrs_)
                  end
            end
        end
    end.

(** The loop of [to_builtin] over the statements of one subject. *)
Fixpoint fold_stmts (stmts : list (node * node)) (attrs_ : gmap dkey pyobj)
    (schema : option Schema) : exn + gmap dkey pyobj :=
  match stmts with
  | [] => inr attrs_
  | (r, v) :: rest =>
      match _update_attrs_from_stmt r v attrs_ schema with
      | inl e => inl e
      | inr attrs' => fold_stmts rest attrs' schema
      end
  end.

(** [sub_graph] (lines 181-201). *)
Definition sub_graph (graph : graph_ref) (identifier : string) : M graph_ref :=
  let identifier := make_ref identifier in
  found <- Graph_contains graph (Some identifier, None, None) ;;
  if negb found then
    raise ValueError ("Identifier " +:+ node_str identifier +:+ " not present in graph")
  else
    tuples <- Graph_predicate_objects graph identifier ;;
    sub <- Graph_new ;;
    for_each (λ po, Graph_add sub (identifier, po.1, po.2)) tuples ;;
    ret sub.

(** The key a statement is stored under, when it is stored. *)
Definition stmt_key (pred : node) (schema : option Schema) : option dkey :=
  if bool_decide (pred = RDF_type) then None
  else
    match schema with
    | None => Some (KRef pred)
    | Some sch => KStr <$> ref_mapping sch !! pred
    end.

(** A Python [dict] enumerates its entries in the order their keys were
    first written.  The attribute mapping is kept as a finite map, and the
    order is recovered from the keys in the order of their writes. *)
Definition dict_items (written : list dkey) (d : gmap dkey pyobj) : list (dkey * pyobj) :=
  omap (λ k, (λ v, (k, v)) <$> d !! k) (unique written).

(** Modelled from the spec: the generic value codec behind
    [msgspec.to_builtins] and the [enc_hook] of [appnlib.core.json], neither
    part of [graph.py]; it normalizes every term of a mapping into a plain
    value, element by element, and returns a mapping keyed by plain texts (a
    term used as a key gives its text).  The entries are converted in the
    order of the mapping, so of two keys with the same text the later one
    stays. *)
Definition node_to_builtin (n : node) : pyval :=
  match n with
  | URIRef u => PAtom (SStr u)
  | BNode b => PAtom (SStr b)
  | Literal v _ => PAtom v
  end.

Fixpoint obj_to_builtin (o : pyobj) : pyval :=
  match o with
  | OStr s => PAtom (SStr s)
  | ONode n => node_to_builtin n
  | OList items => PList (map obj_to_builtin items)
  end.

Definition key_str (k : dkey) : string :=
  match k with
  | KStr s => s
  | KRef n => node_str n
  end.

Definition dict_to_builtins (items : list (dkey * pyobj)) : gmap string pyval :=
  foldl (λ acc kv, <[key_str kv.1 := obj_to_builtin kv.2]> acc) ∅ items.

Definition msgspec_to_builtins (result : list (list (dkey * pyobj)))
    : list (gmap string pyval) :=
  map dict_to_builtins result.

(** [to_builtin] (lines 214-263).  The subjects are visited in the order the
    set enumerates them. *)
Definition to_builtin (graph : graph_ref) (identifier : option string)
    (schema : option Schema) : M (list (gmap string pyval)) :=
  id_pool <- _get_subjects graph identifier schema ;;
  result <- for_collect (λ item,
      let item_attrs : gmap dkey pyobj := {[ KStr "id" := OStr (node_str item) ]} in
      stmts <- Graph_predicate_objects graph item ;;
      item_attrs <- lift (fold_stmts stmts item_attrs schema) ;;
      ret (dict_items (KStr "id" :: omap (λ po, stmt_key po.1 schema) stmts) item_attrs))
    (elements id_pool) ;;
  ret (msgspec_to_builtins result).

(** A record class: its [__schema__], the names of its declared fields in
    declaration order, the defaults of the fields that have one, and the
    conversion of a value to the type of a field, which gives the converted
    value or the [ValidationError] the codec raises for it. *)
Record model_cls := {
  cls_schema : Schema;
  cls_fields : list string;
  cls_defaults : gmap string pyval;
  cls_decode : string → pyval → exn + pyval
}.

(** Modelled from the spec: the typed decode [msgspec.convert(mapping,
    type=model_cls, strict=False)], not part of [graph.py]; it builds the
    instance from the declared fields, each converted to its type when the
    mapping holds it and set to its default otherwise, and ignores the other
    keys.  A declared field that is missing and has no default is a
    [ValidationError]. *)
Definition convert_field (cls : model_cls) (d : gmap string pyval) (f : string)
    : exn + string * pyval :=
  match d !! f with
  | Some v =>
      match cls_decode cls f v with
      | inl e => inl e
      | inr v' => inr (f, v')
      end
  | None =>
      match cls_defaults cls !! f with
      | Some v' => inr (f, v')
      | None => inl (Exn ValidationError ("Object missing required field `" +:+ f +:+ "`"))
      end
  end.

Definition msgspec_convert (d : gmap string pyval) (cls : model_cls) : exn + struct :=
  match collect (convert_field cls d) (cls_fields cls) with
  | inl e => inl e
  | inr fields => inr {| st_attrs := list_to_map fields; st_schema := Some (cls_schema cls) |}
  end.

(** [to_struct] (lines 266-291). *)
Definition to_struct (graph : graph_ref) (identifier : string) (cls : model_cls)
    (schema : option Schema) : M struct :=
  let schema := match schema with Some sch => sch | None => cls_schema cls end in
  data_kwargs <- to_builtin graph (Some identifier) (Some schema) ;;
  match data_kwargs with
  | [] => raise IndexError "list index out of range"
  | d :: _ => lift (msgspec_convert d cls)
  end.

(** [from_struct] (lines 135-178).  [appnlib.core.utils.validate_schema] is
    not part of [graph.py]: the encoder is parametric in it.  It either
    accepts the instance or names the exception it raises.  The graph's own
    identifier tag is used by no operation of the module and is not kept. *)
Section Encoder.

Variable validate_schema : struct → Schema → option exn.

Definition from_struct (s : struct) (schema : option Schema)
    (graph : option graph_ref) (identifier : option string) : M graph_ref :=
  schema <- match schema with
            | Some sch =>
                match validate_schema s sch with
                | Some e => lift (inl e)
                | None => ret sch
                end
            | None =>
                match st_schema s with
                | None => raise MissingSchema
                            "A schema must be provided to convert struct to graph"
                | Some sch => ret sch
                end
            end ;;
  graph <- match graph with
           | None => Graph_new
           | Some g => ret g
           end ;;
  instance_id <-
    (if is_not_None (get_key_or_attribute "ID" s) then
       ret (get_key_or_attribute "ID" s)
     else if is_not_None (get_key_or_attribute "id" s) then
       ret (get_key_or_attribute "id" s)
     else raise ValueError "Missing ID/id field in object in from_struct operation") ;;
  describer <- Describer_new graph instance_id ;;
  rdftype describer (rdf_resource schema) ;;
  for_each (λ ni,
      v <- get_key_or_attribute_strict ni.1 s ;;
      _describer_add_value describer v ni.2) (name_mapping schema) ;;
  ret graph.

(** The schema [from_struct] works with, or the exception raised while
    choosing it. *)
Definition chosen_schema (s : struct) (schema : option Schema) : exn + Schema :=
  match schema with
  | Some sch =>
      match validate_schema s sch with
      | Some e => inl e
      | None => inr sch
      end
  | None =>
      match st_schema s with
      | None => inl (Exn MissingSchema "A schema must be provided to convert struct to graph")
      | Some sch => inr sch
      end
  end.



End Encoder.

(** * The notions the statements are about *)

(** The values a list of statements gives to one predicate, in order. *)
Definition values_of (p : node) (stmts : list (node * node)) : list node :=
  snd <$> filter (λ po, po.1 = p) stmts.

(** What the schema-agnostic fold stores under a predicate that received the
    values [vs]: nothing, the single value itself, or the sequence of all
    values, first to last. *)
Definition grouped (vs : list node) : option pyobj :=
  match vs with
  | [] => None
  | [v] => Some (ONode v)
  | v1 :: v2 :: more => Some (OList (ONode v1 :: ONode v2 :: (ONode <$> more)))
  end.

(** One schema-agnostic update of the entry of a predicate. *)
Definition absorb (old : option pyobj) (v : node) : option pyobj :=
  match old with
  | None => Some (ONode v)
  | Some (OList items) => Some (OList (items ++ [ONode v]))
  | Some o => Some (OList [o; ONode v])
  end.

(** The values a list of statements gives to the field [f] of a schema, in
    order: the objects of the statements, other than [rdf:type] ones, whose
    predicate the schema maps to [f]. *)
Definition values_for (sch : Schema) (f : string) (stmts : list (node * node)) : list node :=
  snd <$> filter (λ po, po.1 ≠ RDF_type ∧ ref_mapping sch !! po.1 = Some f) stmts.

(** What the schema-aware fold stores for a field that received [vs]. *)
Definition stored (info : FieldInfo) (vs : list node) : option pyobj :=
  match vs with
  | [] => None
  | v :: _ => Some (if repeat info then OList (ONode <$> vs) else ONode v)
  end.

(** Every statement other than an [rdf:type] one addresses a field the schema
    declares, and the mapping [a] holds no value for that field yet. *)
Definition addressed (sch : Schema) (a : gmap dkey pyobj) (stmts : list (node * node)) : Prop :=
  ∀ p v, (p, v) ∈ stmts → p ≠ RDF_type →
    ∃ f info, ref_mapping sch !! p = Some f ∧ attrs sch !! f = Some info
              ∧ a !! KStr f = None.

(** The outcome of a schema-aware fold, described by the values each field
    received. *)
Definition fold_outcome (sch : Schema) (a : gmap dkey pyobj) (stmts : list (node * node))
    (r : exn + gmap dkey pyobj) : Prop :=
  match r with
  | inl e =>
      exn_kind e = AnnotationError
      ∧ ∃ f info, attrs sch !! f = Some info ∧ repeat info = false
                  ∧ 2 ≤ length (values_for sch f stmts)
  | inr a' =>
      (∀ f info, attrs sch !! f = Some info → repeat info = false →
                 length (values_for sch f stmts) ≤ 1)
      ∧ (∀ f info, attrs sch !! f = Some info → a !! KStr f = None →
                   a' !! KStr f = stored info (values_for sch f stmts))
  end.

(** The scalars of a field value in emission order: [None] gives none,
    a list gives those of its elements, one after the other. *)
Fixpoint flatten (v : pyval) : list scalar :=
  match v with
  | PNone => []
  | PAtom a => [a]
  | PList items => concat (map flatten items)
  end.

(** A term that refers to a subject: a URI reference or a blank node. *)
Definition is_reference (n : node) : Prop :=
  match n with
  | Literal _ _ => False
  | _ => True
  end.

(** [URIRef] accepts a text and refuses an integer, and the describer only
    builds a reference from a truthy value: a scalar can stand for a subject
    unless it is an integer other than [0]. *)
Definition relatable (a : scalar) : bool :=
  match a with
  | SStr _ => true
  | SInt z => bool_decide (z = 0%Z)
  end.

(** The scalars the emitter writes a statement for under a value kind; on
    the others it raises. *)
Definition accepted (k : value_kind) (a : scalar) : bool :=
  match k with
  | IDRef => relatable a
  | Datatype _ => true
  end.

(** The scalars written before the first one that is not accepted. *)
Fixpoint accepted_prefix (k : value_kind) (atoms : list scalar) : list scalar :=
  match atoms with
  | [] => []
  | a :: rest => if accepted k a then a :: accepted_prefix k rest else []
  end.

(** What the emitter returns on a value that holds the scalars [atoms]. *)
Definition emitter_outcome (k : value_kind) (atoms : list scalar) : exn + unit :=
  if forallb (accepted k) atoms then inr tt
  else inl (Exn TypeError "argument of type 'int' is not iterable").

(** The values the describer can take as its subject. *)
Definition castable (v : pyval) : bool :=
  match v with
  | PAtom a => relatable a
  | _ => true
  end.

(** The object emitted for the scalar [a] under a value kind. *)
Definition emits (kind : value_kind) (a : scalar) (o : node) : Prop :=
  match kind with
  | IDRef => is_reference o ∧ (truthy (PAtom a) = true → o = URIRef (scalar_str a))
  | Datatype dt => o = Literal a (Some dt)
  end.

(** The statements [(about, p, o)] for [o] in [objs], added in order. *)
Definition add_objects (about p : node) (objs : list node) (g : store) : store :=
  foldl (λ g o, store_add (about, p, o) g) g objs.

(** From [w] to [w']: the graph of the describer received the objects
    [objs] under predicate [p], and no other graph changed. *)
Definition emitted (d : Describer) (p : node) (w : world) (objs : list node) (w' : world)
    : Prop :=
  triples_of w' (d_graph d) = add_objects (d_about d) p objs (triples_of w (d_graph d))
  ∧ (∀ g, g ≠ d_graph d → graphs w' !! g = graphs w !! g).

(** Some statement of the store has [s] as its subject. *)
Definition has_subject (s : node) (g : store) : Prop :=
  ∃ p o, (s, p, o) ∈ g.

(** The statements [sub_graph] writes: one per distinct pair of the subject. *)
Definition sub_statements (s : node) (g : store) : list triple :=
  (λ po, (s, po.1, po.2)) <$> store_predicate_objects s g.

(** A computation that leaves every world as it found it, whether it returns
    or raises. *)
Definition read_only {A} (c : M A) : Prop := ∀ w, (c w).2 = w.

(** The identifier [from_struct] reads off a record: the value under ["ID"]
    when that is not [None], else the value under ["id"]. *)
Definition instance_id_of (s : struct) : pyval :=
  if is_not_None (get_key_or_attribute "ID" s) then get_key_or_attribute "ID" s
  else get_key_or_attribute "id" s.

(** The subject the describer gives to a record whose identifier is [v]:
    the URI reference with the text of [v], or the next blank node when [v]
    is falsy. *)
Definition subject_for (v : pyval) (w : world) : node :=
  if truthy v then URIRef (py_str v) else BNode ("N" +:+ pretty (bnodes w)).

(** From [w] to [w']: no statement was lost, and every statement gained is
    in the graph [g0] and has subject [about]. *)
Definition grows (g0 : graph_ref) (about : node) (w w' : world) : Prop :=
  (∀ g t, t ∈ triples_of w g → t ∈ triples_of w' g)
  ∧ (∀ g t, t ∈ triples_of w' g → t ∈ triples_of w g ∨ (g = g0 ∧ subject_of t = about)).

(** The body of the loop of [from_struct] over the fields of the schema. *)
Definition emit_field (s : struct) (describer : Describer) (ni : string * FieldInfo) : M unit :=
  v <- get_key_or_attribute_strict ni.1 s ;;
  _describer_add_value describer v ni.2.

(** The graph [from_struct] writes to. *)
Definition target_graph (graph : option graph_ref) (w : world) : graph_ref :=
  match graph with
  | Some g => g
  | None => fresh (dom (graphs w))
  end.

(** The world once the target graph exists. *)
Definition with_target (graph : option graph_ref) (w : world) : world :=
  match graph with
  | Some g => w
  | None => World (<[fresh (dom (graphs w)) := []]> (graphs w)) (bnodes w)
  end.

(** The object the emitter writes for a scalar that fits the value kind. *)
Definition encode (k : value_kind) (a : scalar) : node :=
  match k with
  | IDRef => URIRef (scalar_str a)
  | Datatype dt => Literal a (Some dt)
  end.

(** A scalar fits a relation when it is a non-empty text; any scalar fits a
    literal datatype. *)
Definition fits (k : value_kind) (a : scalar) : Prop :=
  match k with
  | IDRef => ∃ s, a = SStr s ∧ s ≠ ""
  | Datatype _ => True
  end.

(** [XSD.string]. *)
Definition XSD_string : string := "http://www.w3.org/2001/XMLSchema#string".







(** The (predicate, object) pairs of one field of a record, and of the whole
    record, in emission order. *)
Definition field_stmts (r : struct) (ni : string * FieldInfo) : list (node * node) :=
  (λ a, (ref ni.2, encode (range ni.2) a)) <$> flatten (get_key_or_attribute ni.1 r).

Definition record_stmts (r : struct) (sch : Schema) : list (node * node) :=
  (RDF_type, rdf_resource sch) :: (name_mapping sch ≫= field_stmts r).

(** A pair as a statement about the subject [s]. *)
Definition about_subject (s : node) (po : node * node) : triple := (s, po.1, po.2).

(** * Worked instances and the statements of the specification *)

(** The [Person] schema: a name (one literal) and friends (any number of
    relations). *)
Definition name_info : FieldInfo :=
  {| ref := URIRef "ex:name"; range := Datatype XSD_string; repeat := false |}.

Definition knows_info : FieldInfo :=
  {| ref := URIRef "ex:knows"; range := IDRef; repeat := true |}.

Definition Person : Schema :=
  {| rdf_resource := URIRef "ex:Person";
     attrs := {[ "name" := name_info; "friends" := knows_info ]};
     name_mapping := [("name", name_info); ("friends", knows_info)];
     ref_mapping := {[ URIRef "ex:name" := "name"; URIRef "ex:knows" := "friends" ]} |}.

(** The conversion to [str], and to [list[str]]. *)
Definition decode_str (f : string) (v : pyval) : exn + pyval :=
  match v with
  | PAtom (SStr _) => inr v
  | _ => inl (Exn ValidationError ("Expected `str` - at `$." +:+ f +:+ "`"))
  end.

Definition decode_str_list (f : string) (v : pyval) : exn + pyval :=
  match v with
  | PList items =>
      if forallb is_str items then inr v
      else inl (Exn ValidationError ("Expected `str` - at `$." +:+ f +:+ "[...]`"))
  | _ => inl (Exn ValidationError ("Expected `array` - at `$." +:+ f +:+ "`"))
  end.

(** The class of persons: three required fields. *)
Definition PersonCls : model_cls :=
  {| cls_schema := Person;
     cls_fields := ["id"; "name"; "friends"];
     cls_defaults := ∅;
     cls_decode := λ f, if bool_decide (f = "friends") then decode_str_list f
                        else decode_str f |}.

(** A second schema with the same fields and another resource. *)
Definition Robot : Schema :=
  {| rdf_resource := URIRef "ex:Robot";
     attrs := attrs Person;
     name_mapping := name_mapping Person;
     ref_mapping := ref_mapping Person |}.

(** Alice, with two friends. *)
Definition alice : struct :=
  {| st_attrs := {[ "id" := PAtom (SStr "ex:alice");
                    "name" := PAtom (SStr "Alice");
                    "friends" := PList [PAtom (SStr "ex:bob"); PAtom (SStr "ex:carol")] ]};
     st_schema := None |}.

(** Alice again, exposing both identifier names with different values. *)
Definition alice_both : struct :=
  {| st_attrs := <["ID" := PAtom (SStr "ex:alice")]>
                   (<["id" := PAtom (SStr "ex:other")]> (st_attrs alice));
     st_schema := None |}.

(** Alice exposing both names, the primary one with the empty text. *)
Definition alice_empty_id : struct :=
  {| st_attrs := <["ID" := PAtom (SStr "")]>
                   (<["id" := PAtom (SStr "ex:other")]> (st_attrs alice));
     st_schema := None |}.

(** A record with no identifier under either name. *)
Definition nameless : struct :=
  {| st_attrs := {[ "name" := PAtom (SStr "Nobody"); "friends" := PList [] ]};
     st_schema := None |}.

(** A record that lists the same friend twice. *)
Definition twin : struct :=
  {| st_attrs := {[ "id" := PAtom (SStr "ex:alice");
                    "name" := PAtom (SStr "Alice");
                    "friends" := PList [PAtom (SStr "ex:bob"); PAtom (SStr "ex:bob")] ]};
     st_schema := None |}.

(** A validator that accepts every record. *)
Definition accept (s : struct) (sch : Schema) : option exn := None.

(** The empty world; a world whose graph [0] describes Alice; and a world
    whose graph [0] types a blank node as a person. *)
Definition w_empty : world := World ∅ 0.

Definition alice_statements : list triple :=
  [ (URIRef "ex:alice", RDF_type, URIRef "ex:Person");
    (URIRef "ex:alice", URIRef "ex:name", Literal (SStr "Alice") (Some XSD_string));
    (URIRef "ex:alice", URIRef "ex:knows", URIRef "ex:bob");
    (URIRef "ex:alice", URIRef "ex:knows", URIRef "ex:carol") ].

Definition w_alice : world := World {[ 0 := alice_statements ]} 0.

Definition w_blank : world :=
  World {[ 0 := [ (BNode "b1", RDF_type, URIRef "ex:Person") ] ]} 0.

(** The statements of Alice as (predicate, object) pairs. *)
Definition alice_pairs : list (node * node) :=
  [ (RDF_type, URIRef "ex:Person");
    (URIRef "ex:name", Literal (SStr "Alice") (Some XSD_string));
    (URIRef "ex:knows", URIRef "ex:bob");
    (URIRef "ex:knows", URIRef "ex:carol") ].

(** The entries of the mappings a decoding returned, each mapping in the
    order it enumerates its keys. *)
Definition entries_of {A} (r : (exn + list (gmap string A)) * world)
    : exn + list (list (string * A)) :=
  match r.1 with
  | inl e => inl e
  | inr ms => inr (map_to_list <$> ms)
  end.

(** C2 as the spec states it for the schema-only case: the resolver returns
    exactly the subjects typed with the schema's resource. *)
Definition resolves_typed_subjects (w : world) (g : graph_ref) (sch : Schema) : Prop :=
  ∃ X, _get_subjects g None (Some sch) w = (inr X, w)
       ∧ ∀ x, x ∈ X ↔ (x, RDF_type, rdf_resource sch) ∈ triples_of w g.


(** C6 as the spec states it: the value under the primary name is the
    subject of the statements the encoder writes. *)
Definition primary_is_subject (validate : struct → Schema → option exn) (s : struct)
    (sch : Schema) (w : world) : Prop :=
  (make_ref (py_str (get_key_or_attribute "ID" s)), RDF_type, rdf_resource sch)
    ∈ triples_of (from_struct validate s (Some sch) None None w).2 (target_graph None w).

(** C8 as the spec states it: the failure on a subject of another type is of
    a different error kind than every not-found failure. *)
Definition mismatch_is_distinct_kind (w : world) (g : graph_ref) (i : string) (sch : Schema)
    : Prop :=
  ∃ e, _get_subjects g (Some i) (Some sch) w = (inl e, w)
       ∧ ∀ w' g' i' e',
           ¬ has_subject (make_ref i') (triples_of w' g') →
           _get_subjects g' (Some i') (Some sch) w' = (inl e', w') →
           exn_kind e ≠ exn_kind e'.


(** * Decoding one subject, and records the encoder accepts *)

(** The optional resource the resolver matches against when it resolves by
    [rdf:type]. *)
Definition resource_of (schema : option Schema) : option node :=
  rdf_resource <$> schema.

(** The mapping [to_builtin] starts every subject from. *)
Definition id_attrs (item : node) : gmap dkey pyobj :=
  {[ KStr "id" := OStr (node_str item) ]}.

(** C3 as the spec states it, from the mapping the decoder starts a subject
    with: the fold raises the cardinality violation exactly when some field
    that is not repeatable receives a second value. *)
Definition cardinality_contract (sch : Schema) (item : node) (stmts : list (node * node))
    : Prop :=
  (∃ e, fold_stmts stmts (id_attrs item) (Some sch) = inl e
        ∧ exn_kind e = AnnotationError)
  ↔ (∃ f info, attrs sch !! f = Some info ∧ repeat info = false
               ∧ 2 ≤ length (values_for sch f stmts)).

(** What [to_builtin] gives for one subject: the entries of the fold of its
    distinct (predicate, object) pairs, then rendered by the codec. *)
Definition subject_items (T : store) (item : node) (schema : option Schema)
    : exn + list (dkey * pyobj) :=
  match fold_stmts (store_predicate_objects item T) (id_attrs item) schema with
  | inl e => inl e
  | inr a =>
      inr (dict_items
             (KStr "id" :: omap (λ po, stmt_key po.1 schema) (store_predicate_objects item T))
             a)
  end.

Definition decode_subject (T : store) (item : node) (schema : option Schema)
    : exn + gmap string pyval :=
  match subject_items T item schema with
  | inl e => inl e
  | inr items => inr (dict_to_builtins items)
  end.

(** The reserved entry ["id"] is not written over: under a schema every key
    is a field name; with none, this asks that no predicate of the subject
    has the text ["id"]. *)
Definition id_kept (schema : option Schema) (T : store) (item : node) : Prop :=
  schema = None → ∀ p o, (item, p, o) ∈ T → node_str p ≠ "id".

(** Among the predicates of the subject, [p] alone has its text. *)
Definition own_text (T : store) (item p : node) : Prop :=
  ∀ q o, (item, q, o) ∈ T → q ≠ RDF_type → node_str q = node_str p → q = p.

(** The schema [to_struct] decodes with. *)
Definition struct_schema (cls : model_cls) (schema : option Schema) : Schema :=
  match schema with
  | Some sch => sch
  | None => cls_schema cls
  end.

(** The record holds, for every field of the schema, a value whose scalars
    fit the field's value kind. *)
Definition record_fits (r : struct) (sch : Schema) : Prop :=
  ∀ f info, (f, info) ∈ name_mapping sch →
    ∃ v, st_attrs r !! f = Some v ∧ Forall (fits (range info)) (flatten v).



(** Every field the schema declares is present in the record, and holds
    only scalars the emitter accepts under the field's value kind. *)
Definition fields_emittable (s : struct) (sch : Schema) : Prop :=
  ∀ f info, (f, info) ∈ name_mapping sch →
    ∃ v, st_attrs s !! f = Some v
         ∧ Forall (λ a, accepted (range info) a = true) (flatten v).

(** A URI reference, as opposed to a blank node or a literal. *)
Definition is_uri (n : node) : Prop :=
  match n with
  | URIRef _ => True
  | _ => False
  end.

(** Further instances. *)

(** A schema that gives a predicate the field name ["id"]. *)
Definition Badge : Schema :=
  {| rdf_resource := URIRef "ex:Person";
     attrs := {[ "id" := name_info ]};
     name_mapping := [("id", name_info)];
     ref_mapping := {[ URIRef "ex:name" := "id" ]} |}.

(** Alice without her friends field. *)
Definition alice_partial : struct :=
  {| st_attrs := {[ "id" := PAtom (SStr "ex:alice"); "name" := PAtom (SStr "Alice") ]};
     st_schema := None |}.



(** A world whose graph [0] gives Alice a predicate with the text ["id"]. *)
Definition w_id_predicate : world :=
  World {[ 0 := [ (URIRef "ex:alice", URIRef "id", URIRef "ex:zzz") ] ]} 0.

(** The world after extracting the subgraph of Alice from [w_alice]. *)
Definition w_alice_sub : world := (sub_graph 0 "ex:alice" w_alice).2.

(** A describer of Alice on graph [0]. *)
Definition alice_describer : Describer :=
  {| d_graph := 0; d_about := URIRef "ex:alice" |}.

(** * The statement folder *)

Lemma update_skips_type v a schema :
  _update_attrs_from_stmt RDF_type v a schema = inr a.
Proof. reflexivity. Qed.

Lemma update_no_schema_absorb p v a :
  p ≠ RDF_type →
  ∃ o, absorb (a !! KRef p) v = Some o
       ∧ _update_attrs_from_stmt p v a None = inr (<[KRef p := o]> a).
Proof.
  intros Hp. unfold _update_attrs_from_stmt.
  rewrite bool_decide_eq_false_2 by done.
  destruct (a !! KRef p) as [[s|n|items]|]; simpl; eauto.
Qed.

Lemma foldl_absorb_list items vs :
  foldl absorb (Some (OList items)) vs = Some (OList (items ++ (ONode <$> vs))).
Proof.
  revert items. induction vs as [|v vs IH]; intros items; simpl.
  - by rewrite app_nil_r.
  - rewrite IH. by rewrite <- app_assoc.
Qed.

Lemma foldl_absorb_grouped vs : foldl absorb None vs = grouped vs.
Proof.
  destruct vs as [|v1 [|v2 more]]; try reflexivity.
  simpl. by rewrite foldl_absorb_list.
Qed.

Lemma values_of_cons_eq p v stmts : values_of p ((p, v) :: stmts) = v :: values_of p stmts.
Proof. unfold values_of. rewrite filter_cons_True by done. reflexivity. Qed.

Lemma values_of_cons_ne p q v stmts :
  q ≠ p → values_of p ((q, v) :: stmts) = values_of p stmts.
Proof. intros Hq. unfold values_of. by rewrite filter_cons_False. Qed.

Lemma fold_no_schema_lookup stmts : ∀ a,
  ∃ a', fold_stmts stmts a None = inr a'
        ∧ (∀ p, p ≠ RDF_type →
             a' !! KRef p = foldl absorb (a !! KRef p) (values_of p stmts))
        ∧ a' !! KRef RDF_type = a !! KRef RDF_type
        ∧ (∀ s, a' !! KStr s = a !! KStr s).
Proof.
  induction stmts as [|[q v] stmts IH]; intros a.
  - exists a. by repeat split.
  - simpl. destruct (decide (q = RDF_type)) as [->|Hq].
    + rewrite update_skips_type.
      destruct (IH a) as (a' & Hf & Hp & Ht & Hs).
      exists a'. repeat split; try done.
      intros p Hpt. rewrite values_of_cons_ne by done. by apply Hp.
    + destruct (update_no_schema_absorb q v a Hq) as (o & Ho & ->).
      destruct (IH (<[KRef q := o]> a)) as (a' & Hf & Hp & Ht & Hs).
      exists a'. repeat split; try done.
      * intros p Hpt. rewrite Hp by done.
        destruct (decide (q = p)) as [->|Hne].
        -- rewrite values_of_cons_eq, lookup_insert_eq. simpl. by rewrite Ho.
        -- rewrite values_of_cons_ne by done.
           rewrite lookup_insert_ne by congruence. done.
      * rewrite Ht. rewrite lookup_insert_ne by congruence. done.
      * intros s. rewrite Hs. by rewrite lookup_insert_ne.
Qed.

Lemma fold_no_schema_skips_type stmts : ∀ a,
  fold_stmts (filter (λ po, po.1 ≠ RDF_type) stmts) a None = fold_stmts stmts a None.
Proof.
  induction stmts as [|[q v] stmts IH]; intros a; [done|].
  destruct (decide (q = RDF_type)) as [->|Hq].
  - rewrite filter_cons_False by (simpl; auto). simpl. apply IH.
  - rewrite filter_cons_True by done. simpl.
    destruct (_update_attrs_from_stmt q v a None); [done|apply IH].
Qed.

(** C4.  Without a schema, one update skips an [rdf:type] statement; for
    any other predicate it stores the value itself under the raw predicate
    key when the key is new, turns a stored single value into the sequence of
    that value and the new one, and appends to a stored sequence.  Hence
    folding the statements of a subject never raises, gives the same mapping
    as folding them with the [rdf:type] statements left out, and leaves under
    every other predicate that was not a key before the value itself after
    one occurrence and the sequence of all values, first then second then the
    further ones, after two or more.  Text keys such as ["id"] are not
    touched. *)
Theorem fold_no_schema_groups (a : gmap dkey pyobj) (p v : node) :
  _update_attrs_from_stmt RDF_type v a None = inr a
  ∧ (p ≠ RDF_type →
     (a !! KRef p = None →
        _update_attrs_from_stmt p v a None = inr (<[KRef p := ONode v]> a))
     ∧ (∀ first, a !! KRef p = Some (ONode first) →
        _update_attrs_from_stmt p v a None
        = inr (<[KRef p := OList [ONode first; ONode v]]> a))
     ∧ (∀ items, a !! KRef p = Some (OList items) →
        _update_attrs_from_stmt p v a None
        = inr (<[KRef p := OList (items ++ [ONode v])]> a))
     ∧ (a !! KRef p = None →
        ∀ stmts, ∃ a', fold_stmts stmts a None = inr a'
          ∧ fold_stmts (filter (λ po, po.1 ≠ RDF_type) stmts) a None = inr a'
          ∧ a' !! KRef p = grouped (values_of p stmts)
          ∧ a' !! KRef RDF_type = a !! KRef RDF_type
          ∧ (∀ s, a' !! KStr s = a !! KStr s))).
Proof.
  split; [reflexivity|]. intros Hp.
  assert (∀ old, a !! KRef p = old →
            ∃ o, absorb old v = Some o
                 ∧ _update_attrs_from_stmt p v a None = inr (<[KRef p := o]> a)) as Hstep.
  { intros old <-. by apply update_no_schema_absorb. }
  split_and!.
  - intros Ha. destruct (Hstep _ Ha) as (o & [= <-] & ->). done.
  - intros first Ha. destruct (Hstep _ Ha) as (o & [= <-] & ->). done.
  - intros items Ha. destruct (Hstep _ Ha) as (o & [= <-] & ->). done.
  - intros Ha stmts.
    destruct (fold_no_schema_lookup stmts a) as (a' & Hf & Hl & Ht & Hs).
    exists a'. split_and!; try done.
    + by rewrite fold_no_schema_skips_type.
    + rewrite Hl by done. rewrite Ha. apply foldl_absorb_grouped.
Qed.

Lemma fold_stmts_app l1 l2 a sch :
  fold_stmts (l1 ++ l2) a sch =
  match fold_stmts l1 a sch with
  | inl e => inl e
  | inr a' => fold_stmts l2 a' sch
  end.
Proof.
  revert a. induction l1 as [|[p v] l1 IH]; intros a; simpl; [done|].
  destruct (_update_attrs_from_stmt p v a sch); [done|apply IH].
Qed.

Lemma values_for_snoc_type sch f stmts v :
  values_for sch f (stmts ++ [(RDF_type, v)]) = values_for sch f stmts.
Proof.
  unfold values_for. rewrite filter_app, fmap_app.
  rewrite filter_cons_False by (simpl; tauto).
  by rewrite filter_nil, app_nil_r.
Qed.

Lemma values_for_snoc_eq sch f stmts p v :
  p ≠ RDF_type → ref_mapping sch !! p = Some f →
  values_for sch f (stmts ++ [(p, v)]) = values_for sch f stmts ++ [v].
Proof.
  intros Hp Hf. unfold values_for. rewrite filter_app, fmap_app.
  by rewrite filter_cons_True by done.
Qed.

Lemma values_for_snoc_ne sch f f0 stmts p v :
  ref_mapping sch !! p = Some f0 → f ≠ f0 →
  values_for sch f (stmts ++ [(p, v)]) = values_for sch f stmts.
Proof.
  intros Hf Hne. unfold values_for. rewrite filter_app, fmap_app.
  rewrite filter_cons_False; [by rewrite filter_nil, app_nil_r|].
  simpl. intros [_ H]. congruence.
Qed.

Lemma addressed_app sch a l1 l2 :
  addressed sch a (l1 ++ l2) → addressed sch a l1 ∧ addressed sch a l2.
Proof.
  intros H. split; intros p v Hin Hp; apply (H p v); try done; rewrite elem_of_app; auto.
Qed.

Lemma stored_snoc_repeat info vs v :
  repeat info = true →
  stored info (vs ++ [v]) =
  Some (OList (match stored info vs with
               | Some (OList items) => items ++ [ONode v]
               | _ => [ONode v]
               end)).
Proof.
  intros Hr. destruct vs as [|v1 vs]; simpl; rewrite Hr; [done|].
  by rewrite fmap_app.
Qed.

Lemma fold_schema_outcome sch a stmts :
  addressed sch a stmts →
  fold_outcome sch a stmts (fold_stmts stmts a (Some sch)).
Proof.
  induction stmts as [|[p v] stmts IH] using rev_ind; intros Ha.
  - simpl. split; [intros; simpl; lia|]. intros f info _ Hf. by rewrite Hf.
  - apply addressed_app in Ha as Hsplit. destruct Hsplit as [Ha1 Ha2].
    specialize (IH Ha1). rewrite fold_stmts_app.
    destruct (fold_stmts stmts a (Some sch)) as [e|a'] eqn:Hfold.
    + destruct IH as (Hk & f & info & Hf & Hr & Hlen).
      split; [done|]. exists f, info. repeat split; try done.
      destruct (decide (p = RDF_type)) as [->|Hp].
      * by rewrite values_for_snoc_type.
      * destruct (Ha2 p v ltac:(set_solver) Hp) as (f0 & info0 & Hm & _).
        destruct (decide (f = f0)) as [->|Hne].
        -- rewrite (values_for_snoc_eq _ _ _ _ _ Hp Hm), length_app. lia.
        -- by rewrite (values_for_snoc_ne _ _ _ _ _ _ Hm Hne).
    + destruct IH as [Hone Hst]. simpl.
      destruct (decide (p = RDF_type)) as [->|Hp].
      { rewrite update_skips_type.
        split; intros f info Hf H'; rewrite values_for_snoc_type; eauto. }
      destruct (Ha2 p v ltac:(set_solver) Hp) as (f0 & info0 & Hm & Hi & Hnone).
      unfold _update_attrs_from_stmt.
      rewrite bool_decide_eq_false_2 by done. rewrite Hm, Hi.
      specialize (Hst f0 info0 Hi Hnone) as Hst0.
      destruct (repeat info0) eqn:Hrep.
      * (* a repeatable field *)
        assert (∃ items, (a' !! KStr f0 = None ∧ items = [ONode v]
                          ∨ ∃ old, a' !! KStr f0 = Some (OList old)
                                   ∧ items = old ++ [ONode v])
                         ∧ stored info0 (values_for sch f0 stmts ++ [v])
                           = Some (OList items)) as (items & Hcase & Hnew).
        { rewrite stored_snoc_repeat by done. rewrite <- Hst0.
          destruct (values_for sch f0 stmts) as [|v1 vs] eqn:Hvs.
          - simpl in Hst0. rewrite Hst0. eexists; split; [left; done|done].
          - simpl in Hst0. rewrite Hrep in Hst0. rewrite Hst0.
            eexists; split; [right; eexists; done|done]. }
        assert (match a' !! KStr f0 with
                | Some (OList old) => inr (<[KStr f0 := OList (old ++ [ONode v])]> a')
                | Some _ => inl (Exn AttributeError "append")
                | None => inr (<[KStr f0 := OList [ONode v]]> a')
                end = (inr (<[KStr f0 := OList items]> a') : exn + gmap dkey pyobj)) as ->.
        { destruct Hcase as [[-> ->]|(old & -> & ->)]; done. }
        split.
        -- intros f info Hf Hr.
           destruct (decide (f = f0)) as [->|Hne]; [congruence|].
           rewrite (values_for_snoc_ne _ _ _ _ _ _ Hm Hne). eauto.
        -- intros f info Hf Hn.
           destruct (decide (f = f0)) as [->|Hne].
           ++ rewrite (values_for_snoc_eq _ _ _ _ _ Hp Hm), lookup_insert_eq.
              assert (info = info0) as -> by congruence. by rewrite Hnew.
           ++ rewrite (values_for_snoc_ne _ _ _ _ _ _ Hm Hne).
              rewrite lookup_insert_ne by congruence. eauto.
      * (* a field that is not repeatable *)
        destruct (values_for sch f0 stmts) as [|v1 vs] eqn:Hvs.
        -- simpl in Hst0. rewrite Hst0. split.
           ++ intros f info Hf Hr. destruct (decide (f = f0)) as [->|Hne].
              ** rewrite (values_for_snoc_eq _ _ _ _ _ Hp Hm), Hvs. simpl. lia.
              ** rewrite (values_for_snoc_ne _ _ _ _ _ _ Hm Hne). eauto.
           ++ intros f info Hf Hn. destruct (decide (f = f0)) as [->|Hne].
              ** rewrite (values_for_snoc_eq _ _ _ _ _ Hp Hm), Hvs, lookup_insert_eq.
                 assert (info = info0) as -> by congruence. simpl. by rewrite Hrep.
              ** rewrite (values_for_snoc_ne _ _ _ _ _ _ Hm Hne).
                 rewrite lookup_insert_ne by congruence. eauto.
        -- simpl in Hst0. rewrite Hrep in Hst0. rewrite Hst0.
           split; [done|]. exists f0, info0. repeat split; try done.
           rewrite (values_for_snoc_eq _ _ _ _ _ Hp Hm), Hvs, length_app. simpl. lia.
Qed.

Lemma update_schema_step sch p v a f info :
  p ≠ RDF_type → ref_mapping sch !! p = Some f → attrs sch !! f = Some info →
  _update_attrs_from_stmt p v a (Some sch)
  = if repeat info then
      match a !! KStr f with
      | Some (OList items) => inr (<[KStr f := OList (items ++ [ONode v])]> a)
      | Some _ => inl (Exn AttributeError "append")
      | None => inr (<[KStr f := OList [ONode v]]> a)
      end
    else
      match a !! KStr f with
      | Some _ =>
          inl (Exn AnnotationError
                 ("Field: " +:+ f
                  +:+ " not annotated with repeat, but receives collection like value"))
      | None => inr (<[KStr f := ONode v]> a)
      end.
Proof.
  intros Hp Hm Hi. unfold _update_attrs_from_stmt.
  rewrite bool_decide_eq_false_2 by done. by rewrite Hm, Hi.
Qed.

(** C3.  Under a schema, one update for a repeatable field starts a
    one-element sequence when the field is new and appends to the sequence it
    holds; for a field that is not repeatable it stores the value itself when
    the field is new and raises the cardinality violation ([AnnotationError])
    when the field already holds a value.  Hence, folding statements from a
    mapping that holds none of the fields they address: the fold raises
    exactly when some field that is not repeatable receives a second value,
    and what it raises is the cardinality violation; when it returns, a
    repeatable field holds the sequence of its values in order, a one-element
    sequence after a single occurrence, and a field that is not repeatable
    holds its one value itself, never a list. *)
Theorem fold_schema_cardinality (sch : Schema) (a : gmap dkey pyobj) :
  (∀ p v f info,
     p ≠ RDF_type → ref_mapping sch !! p = Some f → attrs sch !! f = Some info →
     (repeat info = true →
        (a !! KStr f = None →
           _update_attrs_from_stmt p v a (Some sch)
           = inr (<[KStr f := OList [ONode v]]> a))
        ∧ (∀ items, a !! KStr f = Some (OList items) →
           _update_attrs_from_stmt p v a (Some sch)
           = inr (<[KStr f := OList (items ++ [ONode v])]> a)))
     ∧ (repeat info = false →
        (a !! KStr f = None →
           _update_attrs_from_stmt p v a (Some sch) = inr (<[KStr f := ONode v]> a))
        ∧ ((∃ e, _update_attrs_from_stmt p v a (Some sch) = inl e) ↔
           a !! KStr f ≠ None)
        ∧ (∀ e, _update_attrs_from_stmt p v a (Some sch) = inl e →
           exn_kind e = AnnotationError)))
  ∧ (∀ stmts, addressed sch a stmts →
     ((∃ e, fold_stmts stmts a (Some sch) = inl e) ↔
      (∃ f info, attrs sch !! f = Some info ∧ repeat info = false
                 ∧ 2 ≤ length (values_for sch f stmts)))
     ∧ (∀ e, fold_stmts stmts a (Some sch) = inl e → exn_kind e = AnnotationError)
     ∧ (∀ a', fold_stmts stmts a (Some sch) = inr a' →
          ∀ f info, attrs sch !! f = Some info → a !! KStr f = None →
            a' !! KStr f =
            match values_for sch f stmts with
            | [] => None
            | v :: more =>
                Some (if repeat info then OList (ONode v :: (ONode <$> more))
                      else ONode v)
            end)).
Proof.
  split.
  - intros p v f info Hp Hm Hi.
    rewrite (update_schema_step sch p v a f info Hp Hm Hi).
    split; intros Hr; rewrite Hr.
    + split; [by intros ->|]. by intros items ->.
    + destruct (a !! KStr f) as [old|]; split_and!; try done.
      * split; [done|]. eauto.
      * by intros e [= <-].
      * split; [by intros [e [=]]|done].
  - intros stmts Ha. pose proof (fold_schema_outcome sch a stmts Ha) as Hout.
    destruct (fold_stmts stmts a (Some sch)) as [e|a'] eqn:Hfold; simpl in Hout.
    + destruct Hout as [Hk Hex]. split_and!.
      * split; [intros _; exact Hex|intros _; eauto].
      * intros e' [= <-]. exact Hk.
      * intros a' [=].
    + destruct Hout as [Hone Hst]. split_and!.
      * split; [intros [e [=]]|].
        intros (f & info & Hf & Hr & Hlen). specialize (Hone f info Hf Hr). lia.
      * intros e [=].
      * intros a'' [= <-] f info Hf Hn. rewrite (Hst f info Hf Hn).
        unfold stored. destruct (values_for sch f stmts); done.
Qed.

Lemma pyval_nested_ind (P : pyval → Prop) :
  P PNone →
  (∀ a, P (PAtom a)) →
  (∀ items, Forall P items → P (PList items)) →
  ∀ v, P v.
Proof.
  intros HN HA HL.
  refine (fix IH v := match v with
                      | PNone => HN
                      | PAtom a => HA a
                      | PList items =>
                          HL items ((fix go l : Forall P l :=
                                       match l with
                                       | [] => Forall_nil_2 P
                                       | x :: l' => Forall_cons_2 P x l' (IH x) (go l')
                                       end) items)
                      end).
Qed.

Lemma collection_test v :
  is_not_None v && (has_len v && negb (is_str v)) = true ↔ ∃ items, v = PList items.
Proof.
  destruct v as [|[s|z]|items]; simpl; split; try done; try (by intros [? [=]]).
  eauto.
Qed.

Lemma emitted_refl d p w : emitted d p w [] w.
Proof. by split. Qed.

Lemma emitted_trans d p w1 w2 w3 objs1 objs2 :
  emitted d p w1 objs1 w2 → emitted d p w2 objs2 w3 →
  emitted d p w1 (objs1 ++ objs2) w3.
Proof.
  intros [H1 H1'] [H2 H2']. split.
  - unfold add_objects in *. by rewrite foldl_app, <- H1, H2.
  - intros g Hg. rewrite H2', H1'; done.
Qed.

Lemma triples_of_insert_eq g st gs b :
  triples_of (World (<[g := st]> gs) b) g = st.
Proof. unfold triples_of. simpl. by rewrite lookup_insert_eq. Qed.

Lemma Graph_add_emitted d p o w :
  ∃ w', Graph_add (d_graph d) (d_about d, p, o) w = (inr tt, w') ∧ emitted d p w [o] w'.
Proof.
  eexists. split; [reflexivity|]. split.
  - by rewrite triples_of_insert_eq.
  - intros g Hg. simpl. by rewrite lookup_insert_ne.
Qed.

Lemma cast_identifier_run r w :
  cast_identifier r w
  = if castable r then
      if truthy r then (inr (URIRef (py_str r)), w)
      else (inr (BNode ("N" +:+ pretty (bnodes w))), World (graphs w) (S (bnodes w)))
    else (inl (Exn TypeError "argument of type 'int' is not iterable"), w).
Proof.
  unfold cast_identifier, URIRef_new, BNode_new, castable, relatable, truthy, ret, raise.
  destruct r as [|[s|z]|items]; try done.
  - by destruct (negb (bool_decide (s = ""))).
  - by destruct (bool_decide (z = 0%Z)).
  - by destruct items.
Qed.

Lemma describer_atom_emits d a info w :
  accepted (range info) a = true →
  ∃ o w', _describer_add_value d (PAtom a) info w = (inr tt, w')
          ∧ emits (range info) a o ∧ emitted d (ref info) w [o] w'.
Proof.
  intros Hacc. simpl. destruct (range info) as [|dt] eqn:Hk.
  - unfold rel, bind. rewrite cast_identifier_run.
    change (castable (PAtom a)) with (accepted IDRef a). rewrite Hacc.
    destruct (truthy (PAtom a)) eqn:Ht.
    + destruct (Graph_add_emitted d (ref info) (URIRef (py_str (PAtom a))) w)
        as (w' & Hrun & Hem).
      exists (URIRef (py_str (PAtom a))), w'. split_and!; done.
    + set (o := BNode ("N" +:+ pretty (bnodes w))).
      set (w1 := World (graphs w) (S (bnodes w))).
      destruct (Graph_add_emitted d (ref info) o w1) as (w' & Hrun & [Hem1 Hem2]).
      exists o, w'. split; [done|]. split.
      * split; [exact I|]. rewrite Ht. discriminate.
      * split; [exact Hem1|]. intros g Hg. by rewrite (Hem2 g Hg).
  - unfold value.
    destruct (Graph_add_emitted d (ref info) (Literal a (Some dt)) w) as (w' & Hrun & Hem).
    exists (Literal a (Some dt)), w'. split_and!; done.
Qed.

Lemma describer_atom_refused d a info w :
  accepted (range info) a = false →
  _describer_add_value d (PAtom a) info w
  = (inl (Exn TypeError "argument of type 'int' is not iterable"), w).
Proof.
  intros Hacc. simpl. destruct (range info) as [|dt]; [|done].
  unfold rel, bind. rewrite cast_identifier_run.
  change (castable (PAtom a)) with (accepted IDRef a). by rewrite Hacc.
Qed.

Lemma accepted_prefix_all k l1 l2 :
  forallb (accepted k) l1 = true →
  accepted_prefix k (l1 ++ l2) = l1 ++ accepted_prefix k l2.
Proof.
  induction l1 as [|a l1 IH]; [done|]. simpl.
  destruct (accepted k a); [|done]. simpl. intros H. by rewrite IH.
Qed.

Lemma accepted_prefix_stop k l1 l2 :
  forallb (accepted k) l1 = false →
  accepted_prefix k (l1 ++ l2) = accepted_prefix k l1.
Proof.
  induction l1 as [|a l1 IH]; [done|]. simpl.
  destruct (accepted k a); [|done]. simpl. intros H. by rewrite IH.
Qed.

Lemma accepted_prefix_id k l :
  forallb (accepted k) l = true → accepted_prefix k l = l.
Proof.
  intros H. rewrite <- (app_nil_r l) at 1. rewrite accepted_prefix_all by done.
  by rewrite app_nil_r.
Qed.

Lemma describer_add_value_spec d info v : ∀ w,
  ∃ objs w', _describer_add_value d v info w
             = (emitter_outcome (range info) (flatten v), w')
             ∧ Forall2 (emits (range info)) (accepted_prefix (range info) (flatten v)) objs
             ∧ emitted d (ref info) w objs w'.
Proof.
  induction v as [|a|items IH] using pyval_nested_ind; intros w.
  - exists [], w. split_and!; [done|constructor|apply emitted_refl].
  - change (flatten (PAtom a)) with [a]. unfold emitter_outcome.
    cbn [forallb accepted_prefix]. rewrite andb_true_r.
    destruct (accepted (range info) a) eqn:Hacc.
    + destruct (describer_atom_emits d a info w Hacc) as (o & w' & Hrun & Hem & Hw).
      exists [o], w'. split_and!; try done. by repeat constructor.
    + exists [], w. split_and!; [by apply describer_atom_refused|constructor|
                                 apply emitted_refl].
  - change (_describer_add_value d (PList items) info)
      with (for_each (λ item, _describer_add_value d item info) items).
    change (flatten (PList items)) with (concat (map flatten items)).
    revert w. induction IH as [|x items Hx _ IHl]; intros w.
    + exists [], w. split_and!; [done|constructor|apply emitted_refl].
    + destruct (Hx w) as (o1 & w1 & Hrun1 & Hem1 & Hw1).
      cbn [for_each map concat]. unfold bind at 1. rewrite Hrun1.
      unfold emitter_outcome in *. rewrite forallb_app.
      destruct (forallb (accepted (range info)) (flatten x)) eqn:Hall.
      * destruct (IHl w1) as (o2 & w2 & Hrun2 & Hem2 & Hw2).
        exists (o1 ++ o2), w2. split_and!.
        -- rewrite Hrun2. done.
        -- rewrite accepted_prefix_all by done.
           rewrite accepted_prefix_id in Hem1 by done. by apply Forall2_app.
        -- by eapply emitted_trans.
      * exists o1, w1. split_and!; [done| |done].
        by rewrite accepted_prefix_stop.
Qed.

Lemma describer_add_value_accepted d info v w :
  Forall (λ a, accepted (range info) a = true) (flatten v) →
  ∃ objs w', _describer_add_value d v info w = (inr tt, w')
             ∧ Forall2 (emits (range info)) (flatten v) objs
             ∧ emitted d (ref info) w objs w'.
Proof.
  intros Hall.
  assert (forallb (accepted (range info)) (flatten v) = true) as Hb.
  { apply forallb_forall. intros a Ha. apply (proj1 (Forall_forall _ _) Hall).
    by apply list_elem_of_In. }
  destruct (describer_add_value_spec d info v w) as (objs & w' & Hrun & Hem & Hw).
  unfold emitter_outcome in Hrun. rewrite Hb in Hrun.
  rewrite accepted_prefix_id in Hem by done. eauto.
Qed.


(** * The subject resolver *)

Lemma elem_of_store_triples q t g :
  t ∈ store_triples q g ↔ t ∈ g ∧ matches q t = true.
Proof.
  unfold store_triples. rewrite list_elem_of_filter.
  rewrite Is_true_true. tauto.
Qed.

Lemma store_contains_true q g :
  store_contains q g = true ↔ ∃ t, t ∈ g ∧ matches q t = true.
Proof.
  unfold store_contains. split.
  - destruct (store_triples q g) as [|t l] eqn:Hl; [done|]. intros _.
    exists t. apply elem_of_store_triples. rewrite Hl. left.
  - intros (t & Ht). apply elem_of_store_triples in Ht.
    destruct (store_triples q g); [|done]. by apply elem_of_nil in Ht.
Qed.

Lemma matches_subject s t :
  matches (Some s, None, None) t = true ↔ subject_of t = s.
Proof.
  unfold matches. simpl. rewrite !andb_true_r.
  rewrite bool_decide_eq_true. split; congruence.
Qed.

Lemma matches_exact s p o t :
  matches (Some s, Some p, Some o) t = true ↔ t = (s, p, o).
Proof.
  destruct t as [[s' p'] o']. unfold matches. simpl.
  rewrite !andb_true_iff, !bool_decide_eq_true. split.
  - intros [[-> ->] ->]. done.
  - intros [= -> -> ->]. done.
Qed.

Lemma matches_typed o t :
  matches (None, Some RDF_type, o) t = true ↔
  predicate_of t = RDF_type ∧ (∀ r, o = Some r → object_of t = r).
Proof.
  unfold matches. simpl. rewrite andb_true_iff, bool_decide_eq_true.
  destruct o as [r|]; simpl.
  - rewrite bool_decide_eq_true. split.
    + intros [<- <-]. split; [done|]. by intros ? [= <-].
    + intros [<- H]. split; [done|]. symmetry. by apply H.
  - split; [intros [<- _]|intros [<- _]]; done.
Qed.

Lemma store_contains_subject s g :
  store_contains (Some s, None, None) g = true ↔ has_subject s g.
Proof.
  rewrite store_contains_true. split.
  - intros ([[s' p] o] & Hin & Hm). apply matches_subject in Hm.
    simpl in Hm. subst. by exists p, o.
  - intros (p & o & Hin). exists (s, p, o). split; [done|].
    by apply matches_subject.
Qed.

Lemma store_contains_exact s p o g :
  store_contains (Some s, Some p, Some o) g = true ↔ (s, p, o) ∈ g.
Proof.
  rewrite store_contains_true. split.
  - intros (t & Hin & Hm). apply matches_exact in Hm. by subst.
  - intros Hin. exists (s, p, o). split; [done|]. by apply matches_exact.
Qed.

Lemma elem_of_store_subjects_typed s o g :
  s ∈ store_subjects (Some RDF_type) o g ↔
  ∃ r, (s, RDF_type, r) ∈ g ∧ (∀ r', o = Some r' → r = r').
Proof.
  unfold store_subjects. rewrite list_elem_of_fmap. split.
  - intros ([[s' p] r] & -> & Hin). apply elem_of_store_triples in Hin.
    destruct Hin as [Hin Hm]. apply matches_typed in Hm.
    unfold predicate_of, object_of in Hm. simpl in Hm.
    destruct Hm as [-> Ho]. by exists r.
  - intros (r & Hin & Ho). exists (s, RDF_type, r). split; [done|].
    apply elem_of_store_triples. split; [done|]. by apply matches_typed.
Qed.

(** The resolver, case by case.  With a non-empty identifier and no schema it
    returns the singleton of the identifier's reference when that is the
    subject of some statement and raises the not-found [ValueError]
    otherwise.  With a schema only it returns the set of [URIRef(str(s))] for
    the subjects [s] typed with the schema's resource: a URI-reference
    subject is returned as it is, and a blank-node subject as the URI
    reference that has its text.  With neither it does the same for the
    subjects that carry any [rdf:type].  The world is left unchanged. *)
Theorem get_subjects_resolution (w : world) (g : graph_ref) :
  (∀ i, i ≠ "" →
     (has_subject (make_ref i) (triples_of w g) →
        _get_subjects g (Some i) None w = (inr {[ make_ref i ]}, w))
     ∧ (¬ has_subject (make_ref i) (triples_of w g) →
        _get_subjects g (Some i) None w
        = (inl (Exn ValueError ("Identifier: " +:+ i +:+ " not in graph")), w)))
  ∧ (∀ sch, ∃ X, _get_subjects g None (Some sch) w = (inr X, w)
       ∧ ∀ x, x ∈ X ↔ ∃ s, (s, RDF_type, rdf_resource sch) ∈ triples_of w g
                            ∧ x = URIRef (node_str s))
  ∧ (∃ X, _get_subjects g None None w = (inr X, w)
       ∧ ∀ x, x ∈ X ↔ ∃ s o, (s, RDF_type, o) ∈ triples_of w g
                              ∧ x = URIRef (node_str s)).
Proof.
  split_and!.
  - intros i Hi. unfold _get_subjects, truthy_id.
    rewrite bool_decide_eq_false_2 by done. simpl.
    unfold bind, Graph_contains.
    destruct (store_contains (Some (make_ref i), None, None) (triples_of w g)) eqn:Hc.
    + apply store_contains_subject in Hc. split; [done|]. by intros [].
    + split; [|done]. intros Hs. apply store_contains_subject in Hs. congruence.
  - intros sch.
    exists (list_to_set ((λ item, URIRef (node_str item)) <$>
              store_subjects (Some RDF_type) (Some (rdf_resource sch)) (triples_of w g))).
    split; [reflexivity|]. intros x.
    rewrite elem_of_list_to_set, list_elem_of_fmap. split.
    + intros (s & -> & Hs). apply elem_of_store_subjects_typed in Hs.
      destruct Hs as (r & Hin & Hr). rewrite (Hr _ eq_refl) in Hin. by exists s.
    + intros (s & Hin & ->). exists s. split; [done|].
      apply elem_of_store_subjects_typed. exists (rdf_resource sch).
      split; [done|]. by intros ? [= <-].
  - exists (list_to_set ((λ item, URIRef (node_str item)) <$>
              store_subjects (Some RDF_type) None (triples_of w g))).
    split; [reflexivity|]. intros x.
    rewrite elem_of_list_to_set, list_elem_of_fmap. split.
    + intros (s & -> & Hs). apply elem_of_store_subjects_typed in Hs.
      destruct Hs as (r & Hin & _). by exists s, r.
    + intros (s & o & Hin & ->). exists s. split; [done|].
      apply elem_of_store_subjects_typed. exists o. split; [done|]. done.
Qed.

Lemma not_found_message_differs i r :
  "Identifier: " +:+ i +:+ " not in graph"
  ≠ "Object identified by id: " +:+ i +:+ " is not of type: " +:+ r +:+ " in graph".
Proof. discriminate. Qed.

(** C8, as the code has it.  With a non-empty identifier that is a subject
    of the graph but is not typed with the schema's resource, the resolver
    raises a [ValueError] whose message reports the type mismatch.  When the
    identifier is not a subject at all it raises a [ValueError] too: the two
    failures have the same exception class and differ in their message. *)
Theorem get_subjects_type_mismatch (w : world) (g : graph_ref) (i : string) (sch : Schema) :
  i ≠ "" →
  has_subject (make_ref i) (triples_of w g) →
  (make_ref i, RDF_type, rdf_resource sch) ∉ triples_of w g →
  ∃ mismatch,
    _get_subjects g (Some i) (Some sch) w = (inl (Exn ValueError mismatch), w)
    ∧ mismatch = "Object identified by id: " +:+ i +:+ " is not of type: "
                 +:+ node_str (rdf_resource sch) +:+ " in graph"
    ∧ ∀ w' g', ¬ has_subject (make_ref i) (triples_of w' g') →
        ∃ missing,
          _get_subjects g' (Some i) (Some sch) w' = (inl (Exn ValueError missing), w')
          ∧ missing = "Identifier: " +:+ i +:+ " not in graph"
          ∧ missing ≠ mismatch.
Proof.
  intros Hi Hs Ht. eexists. split_and!; [|reflexivity|].
  - unfold _get_subjects, truthy_id.
    rewrite bool_decide_eq_false_2 by done. simpl.
    unfold bind, Graph_contains.
    apply store_contains_subject in Hs. rewrite Hs. simpl.
    destruct (store_contains (Some (make_ref i), Some RDF_type, Some (rdf_resource sch))
                (triples_of w g)) eqn:Hc; [|done].
    apply store_contains_exact in Hc. done.
  - intros w' g' Hn. eexists. split_and!; [|reflexivity|apply not_found_message_differs].
    unfold _get_subjects, truthy_id.
    rewrite bool_decide_eq_false_2 by done. simpl.
    unfold bind, Graph_contains.
    destruct (store_contains (Some (make_ref i), None, None) (triples_of w' g')) eqn:Hc;
      [|done].
    apply store_contains_subject in Hc. done.
Qed.

(** * Subgraph extraction *)

Lemma unique_from_spec {A} `{EqDecision A} (l : list A) : ∀ seen,
  NoDup (unique_from seen l)
  ∧ ∀ x, x ∈ unique_from seen l ↔ x ∈ l ∧ x ∉ seen.
Proof.
  induction l as [|y l IH]; intros seen; simpl.
  - split; [constructor|]. intros x. rewrite elem_of_nil. tauto.
  - destruct (bool_decide (y ∈ seen)) eqn:Hy.
    + apply bool_decide_eq_true in Hy. destruct (IH seen) as [Hnd Hin].
      split; [done|]. intros x. rewrite Hin, elem_of_cons. split; [tauto|].
      intros [[->|Hx] Hn]; tauto.
    + apply bool_decide_eq_false in Hy. destruct (IH (y :: seen)) as [Hnd Hin].
      split.
      * constructor; [|done]. rewrite Hin. intros [_ Hn]. apply Hn. left.
      * intros x. rewrite !elem_of_cons, Hin, elem_of_cons.
        destruct (decide (x = y)) as [->|Hne]; [tauto|]. tauto.
Qed.

Lemma NoDup_unique {A} `{EqDecision A} (l : list A) : NoDup (unique l).
Proof. apply unique_from_spec. Qed.

Lemma elem_of_unique {A} `{EqDecision A} (l : list A) x : x ∈ unique l ↔ x ∈ l.
Proof.
  unfold unique. rewrite (proj2 (unique_from_spec l [])).
  rewrite elem_of_nil. tauto.
Qed.

Lemma elem_of_store_add t t' g : t ∈ store_add t' g ↔ t ∈ g ∨ t = t'.
Proof.
  unfold store_add. destruct (bool_decide (t' ∈ g)) eqn:Hin.
  - apply bool_decide_eq_true in Hin. split; [tauto|]. intros [?|?]; by subst.
  - rewrite elem_of_app, list_elem_of_singleton. tauto.
Qed.

Lemma NoDup_store_add t (g : store) : NoDup g → NoDup (store_add t g).
Proof.
  intros Hnd. unfold store_add. destruct (bool_decide (t ∈ g)) eqn:Hin; [exact Hnd|].
  apply bool_decide_eq_false in Hin. apply NoDup_app. split_and!; [done| |apply NoDup_singleton].
  intros x Hx Hs. apply list_elem_of_singleton in Hs. by subst.
Qed.

Lemma foldl_store_add_spec (ts : list triple) : ∀ g,
  (NoDup g → NoDup (foldl (λ g t, store_add t g) g ts))
  ∧ ∀ t, t ∈ foldl (λ g t, store_add t g) g ts ↔ t ∈ g ∨ t ∈ ts.
Proof.
  induction ts as [|t' ts IH]; intros g; simpl.
  - split; [done|]. intros t. rewrite elem_of_nil. tauto.
  - destruct (IH (store_add t' g)) as [Hnd Hin]. split.
    + intros H. by apply Hnd, NoDup_store_add.
    + intros t. rewrite Hin, elem_of_store_add, elem_of_cons. tauto.
Qed.

Lemma for_each_Graph_add sub (ts : list triple) : ∀ w,
  ∃ w', for_each (Graph_add sub) ts w = (inr tt, w')
        ∧ (ts ≠ [] → triples_of w' sub = foldl (λ g t, store_add t g) (triples_of w sub) ts)
        ∧ (ts ≠ [] → ∀ g, g ≠ sub → graphs w' !! g = graphs w !! g)
        ∧ (ts = [] → w' = w).
Proof.
  induction ts as [|t ts IH]; intros w.
  - exists w. by split_and!.
  - simpl. unfold bind at 1. simpl.
    set (w1 := World (<[sub := store_add t (triples_of w sub)]> (graphs w)) (bnodes w)).
    destruct (IH w1) as (w' & Hrun & Htr & Hoth & Hnil).
    exists w'. split_and!; try done.
    + intros _. destruct ts as [|t2 ts].
      * rewrite (Hnil eq_refl). simpl. apply triples_of_insert_eq.
      * rewrite Htr by done. unfold w1. by rewrite triples_of_insert_eq.
    + intros _ g Hg. destruct ts as [|t2 ts].
      * rewrite (Hnil eq_refl). simpl. by rewrite lookup_insert_ne.
      * rewrite Hoth by done. simpl. by rewrite lookup_insert_ne.
Qed.

Lemma fresh_graph_not_live w : fresh (dom (graphs w)) ∉ dom (graphs w).
Proof. apply is_fresh. Qed.

Lemma has_subject_live s w g : has_subject s (triples_of w g) → g ∈ dom (graphs w).
Proof.
  intros (p & o & Hin). unfold triples_of in Hin. apply elem_of_dom.
  destruct (graphs w !! g); [done|]. simpl in Hin. by apply elem_of_nil in Hin.
Qed.

Lemma sub_statements_spec s g :
  NoDup (sub_statements s g)
  ∧ ∀ t, t ∈ sub_statements s g ↔ subject_of t = s ∧ t ∈ g.
Proof.
  unfold sub_statements, store_predicate_objects. split.
  - apply NoDup_fmap_2; [|apply NoDup_unique]. intros [p o] [p' o'] [= -> ->]. done.
  - intros t. rewrite list_elem_of_fmap. split.
    + intros ([p o] & -> & Hin). apply elem_of_unique, list_elem_of_fmap in Hin.
      destruct Hin as ([[s' p'] o'] & [= -> ->] & Hin).
      apply elem_of_store_triples in Hin. destruct Hin as [Hin Hm].
      apply matches_subject in Hm. unfold subject_of in Hm. simpl in Hm. subst.
      done.
    + intros [Hs Hin]. destruct t as [[s' p] o]. unfold subject_of in Hs.
      simpl in Hs. subst. exists (p, o). split; [done|].
      apply elem_of_unique, list_elem_of_fmap. exists (s, p, o). split; [done|].
      apply elem_of_store_triples. split; [done|]. by apply matches_subject.
Qed.

Lemma sub_graph_run g i w :
  sub_graph g i w =
  if store_contains (Some (make_ref i), None, None) (triples_of w g) then
    match for_each (Graph_add (fresh (dom (graphs w))))
            (sub_statements (make_ref i) (triples_of w g))
            (World (<[fresh (dom (graphs w)) := []]> (graphs w)) (bnodes w)) with
    | (inl e, w') => (inl e, w')
    | (inr _, w') => (inr (fresh (dom (graphs w))), w')
    end
  else (inl (Exn ValueError ("Identifier " +:+ i +:+ " not present in graph")), w).
Proof.
  unfold sub_graph, bind, Graph_contains, Graph_predicate_objects, Graph_new.
  destruct (store_contains (Some (make_ref i), None, None) (triples_of w g)); [|done].
  simpl. unfold sub_statements.
  assert (∀ (l : list (node * node)) w0 sub,
    for_each (λ po, Graph_add sub (make_ref i, po.1, po.2)) l w0
    = for_each (Graph_add sub) ((λ po, (make_ref i, po.1, po.2)) <$> l) w0) as Hmap.
  { induction l as [|po l IH]; intros w0 sub; [done|].
    simpl. unfold bind. simpl. apply IH. }
  rewrite Hmap. done.
Qed.

Lemma sub_graph_missing w g i :
  ¬ has_subject (make_ref i) (triples_of w g) →
  sub_graph g i w
  = (inl (Exn ValueError ("Identifier " +:+ i +:+ " not present in graph")), w).
Proof.
  intros Hn. rewrite sub_graph_run.
  destruct (store_contains _ _) eqn:Hc; [|done].
  apply store_contains_subject in Hc. done.
Qed.

Lemma sub_graph_found w g i :
  has_subject (make_ref i) (triples_of w g) →
  ∃ sub w', sub_graph g i w = (inr sub, w')
    ∧ (sub ∉ dom (graphs w))
    ∧ sub ≠ g
    ∧ (∀ g', g' ≠ sub → graphs w' !! g' = graphs w !! g')
    ∧ NoDup (triples_of w' sub)
    ∧ ∀ t, t ∈ triples_of w' sub ↔ subject_of t = make_ref i ∧ t ∈ triples_of w g.
Proof.
  intros Hs. rewrite sub_graph_run.
  pose proof (has_subject_live _ _ _ Hs) as Hlive.
  apply store_contains_subject in Hs as Hc. rewrite Hc.
  set (sub := fresh (dom (graphs w))).
  set (w1 := World (<[sub := []]> (graphs w)) (bnodes w)).
  pose proof (fresh_graph_not_live w) as Hfresh. fold sub in Hfresh.
  destruct (for_each_Graph_add sub (sub_statements (make_ref i) (triples_of w g)) w1)
    as (w' & Hrun & Htr & Hoth & _).
  rewrite Hrun. exists sub, w'.
  assert (sub_statements (make_ref i) (triples_of w g) ≠ []) as Hne.
  { destruct Hs as (p & o & Hin). intros Hnil.
    assert ((make_ref i, p, o) ∈ sub_statements (make_ref i) (triples_of w g)) as H'
      by (by apply sub_statements_spec).
    rewrite Hnil in H'. by apply elem_of_nil in H'. }
  specialize (Htr Hne). specialize (Hoth Hne).
  unfold w1 in Htr. rewrite triples_of_insert_eq in Htr.
  destruct (sub_statements_spec (make_ref i) (triples_of w g)) as [Hnd Hin].
  destruct (foldl_store_add_spec (sub_statements (make_ref i) (triples_of w g)) [])
    as [Hnd' Hin'].
  split_and!; try done.
  - intros ->. done.
  - intros g' Hg'. rewrite Hoth by done. simpl. by rewrite lookup_insert_ne.
  - rewrite Htr. apply Hnd'. constructor.
  - intros t. rewrite Htr, Hin', Hin, elem_of_nil. tauto.
Qed.

(** C7.  [sub_graph] raises a [ValueError], and leaves the world as it is,
    when the identifier's reference is the subject of no statement of the
    graph.  Otherwise it returns a graph object that did not exist before,
    different from the input graph, whose statements are without repetition
    and are exactly the statements of the input graph that have the
    identifier's reference as subject; every other graph is left as it was. *)
Theorem sub_graph_extracts (w : world) (g : graph_ref) (i : string) :
  (¬ has_subject (make_ref i) (triples_of w g) →
     ∃ msg, sub_graph g i w = (inl (Exn ValueError msg), w))
  ∧ (has_subject (make_ref i) (triples_of w g) →
     ∃ sub w', sub_graph g i w = (inr sub, w')
       ∧ (sub ∉ dom (graphs w))
       ∧ sub ≠ g
       ∧ (∀ g', g' ≠ sub → graphs w' !! g' = graphs w !! g')
       ∧ NoDup (triples_of w' sub)
       ∧ ∀ t, t ∈ triples_of w' sub ↔ subject_of t = make_ref i ∧ t ∈ triples_of w g).
Proof.
  split.
  - intros Hn. eexists. by apply sub_graph_missing.
  - apply sub_graph_found.
Qed.

Lemma has_subject_cases s g : has_subject s g ∨ ¬ has_subject s g.
Proof.
  destruct (store_contains (Some s, None, None) g) eqn:Hc.
  - left. by apply store_contains_subject.
  - right. intros Hs. apply store_contains_subject in Hs. congruence.
Qed.

(** * Decoding does not write *)

Lemma read_only_ret {A} (x : A) : read_only (ret x).
Proof. by intros w. Qed.

Lemma read_only_raise {A} c msg : read_only (raise (A:=A) c msg).
Proof. by intros w. Qed.

Lemma read_only_lift {A} (r : exn + A) : read_only (lift r).
Proof. by intros w. Qed.

Lemma read_only_bind {A B} (c : M A) (k : A → M B) :
  read_only c → (∀ x, read_only (k x)) → read_only (bind c k).
Proof.
  intros Hc Hk w. unfold bind. specialize (Hc w).
  destruct (c w) as [[e|x] w']; simpl in *; subst; [done|apply Hk].
Qed.

Lemma read_only_for_collect {A B} (f : A → M B) l :
  (∀ x, read_only (f x)) → read_only (for_collect f l).
Proof.
  intros Hf. induction l as [|x l IH]; [apply read_only_ret|].
  simpl. apply read_only_bind; [apply Hf|]. intros y.
  apply read_only_bind; [apply IH|]. intros ys. apply read_only_ret.
Qed.

Lemma read_only_get_subjects g identifier schema :
  read_only (_get_subjects g identifier schema).
Proof.
  unfold _get_subjects. destruct (truthy_id identifier).
  - apply read_only_bind; [by intros w|]. intros found.
    destruct (negb found); [apply read_only_raise|].
    destruct schema as [sch|]; [|apply read_only_ret].
    apply read_only_bind; [by intros w|]. intros typed.
    destruct (negb typed); [apply read_only_raise|apply read_only_ret].
  - apply read_only_bind; [by intros w|]. intros items. apply read_only_ret.
Qed.

Lemma read_only_to_builtin g identifier schema :
  read_only (to_builtin g identifier schema).
Proof.
  unfold to_builtin. apply read_only_bind; [apply read_only_get_subjects|].
  intros id_pool. apply read_only_bind; [|intros; apply read_only_ret].
  apply read_only_for_collect. intros item.
  apply read_only_bind; [by intros w|]. intros stmts.
  apply read_only_bind; [apply read_only_lift|]. intros a. apply read_only_ret.
Qed.

Lemma read_only_to_struct g i cls schema : read_only (to_struct g i cls schema).
Proof.
  unfold to_struct. apply read_only_bind; [apply read_only_to_builtin|].
  intros [|d rest]; [apply read_only_raise|apply read_only_lift].
Qed.

(** C9.  [to_builtin] and [to_struct] leave the whole world, and with it the
    statements of the input graph, as they found it, whether they return or
    raise.  [sub_graph] leaves the statements of the input graph unchanged
    and keeps every graph object that existed with the statements it had;
    all it writes is the new graph it returns. *)
Theorem decoding_is_mutation_free (w : world) (g : graph_ref)
    (identifier : option string) (schema : option Schema) (i : string) (cls : model_cls) :
  (to_builtin g identifier schema w).2 = w
  ∧ (to_struct g i cls schema w).2 = w
  ∧ triples_of (sub_graph g i w).2 g = triples_of w g
  ∧ graphs w ⊆ graphs (sub_graph g i w).2.
Proof.
  split_and!.
  - apply read_only_to_builtin.
  - apply read_only_to_struct.
  - destruct (has_subject_cases (make_ref i) (triples_of w g)) as [Hs|Hn].
    + destruct (sub_graph_found w g i Hs) as (sub & w' & -> & _ & Hne & Hoth & _).
      simpl. unfold triples_of. rewrite Hoth; done.
    + by rewrite (sub_graph_missing w g i Hn).
  - destruct (has_subject_cases (make_ref i) (triples_of w g)) as [Hs|Hn].
    + destruct (sub_graph_found w g i Hs) as (sub & w' & -> & Hfresh & _ & Hoth & _).
      simpl. apply map_subseteq_spec. intros g' st Hg'.
      rewrite Hoth; [done|]. intros ->. apply Hfresh, elem_of_dom. eauto.
    + by rewrite (sub_graph_missing w g i Hn).
Qed.

(** * The decoder *)

Lemma get_subjects_by_type g identifier schema w :
  truthy_id identifier = false →
  _get_subjects g identifier schema w
  = (inr (list_to_set ((λ item, URIRef (node_str item)) <$>
            store_subjects (Some RDF_type) (resource_of schema) (triples_of w g))), w).
Proof.
  intros Hf. unfold _get_subjects. rewrite Hf. by destruct schema.
Qed.

Lemma get_subjects_by_identifier g i schema w :
  i ≠ "" →
  _get_subjects g (Some i) schema w
  = if store_contains (Some (make_ref i), None, None) (triples_of w g) then
      match schema with
      | Some sch =>
          if store_contains (Some (make_ref i), Some RDF_type, Some (rdf_resource sch))
               (triples_of w g)
          then (inr {[ make_ref i ]}, w)
          else (inl (Exn ValueError
                       ("Object identified by id: " +:+ i +:+ " is not of type: "
                        +:+ node_str (rdf_resource sch) +:+ " in graph")), w)
      | None => (inr {[ make_ref i ]}, w)
      end
    else (inl (Exn ValueError ("Identifier: " +:+ i +:+ " not in graph")), w).
Proof.
  intros Hi. unfold _get_subjects, truthy_id.
  rewrite bool_decide_eq_false_2 by done. simpl.
  unfold bind, Graph_contains.
  destruct (store_contains (Some (make_ref i), None, None) (triples_of w g)); [|done].
  simpl. destruct schema as [sch|]; [|done].
  by destruct (store_contains _ (triples_of w g)).
Qed.

Lemma for_collect_pure {A B} (f : A → M B) (h : A → exn + B) (l : list A) w :
  (∀ x, f x w = (h x, w)) → for_collect f l w = (collect h l, w).
Proof.
  intros Hf. induction l as [|x l IH]; [done|].
  simpl. unfold bind at 1. rewrite Hf. destruct (h x) as [e|y]; [done|].
  unfold bind at 1. rewrite IH. by destruct (collect h l).
Qed.

Lemma collect_decode T schema (items : list node) :
  match collect (λ item, subject_items T item schema) items with
  | inl e => inl e
  | inr result => inr (msgspec_to_builtins result)
  end = collect (λ item, decode_subject T item schema) items.
Proof.
  induction items as [|x items IH]; [done|]. simpl. unfold decode_subject at 1.
  destruct (subject_items T x schema) as [e|a]; [done|].
  rewrite <- IH.
  by destruct (collect _ items).
Qed.

Lemma to_builtin_run g identifier schema w :
  to_builtin g identifier schema w
  = match (_get_subjects g identifier schema w).1 with
    | inl e => (inl e, w)
    | inr id_pool =>
        (collect (λ item, decode_subject (triples_of w g) item schema) (elements id_pool), w)
    end.
Proof.
  unfold to_builtin, bind.
  pose proof (read_only_get_subjects g identifier schema w) as Hro.
  destruct (_get_subjects g identifier schema w) as [[e|id_pool] w']; simpl in *; subst w';
    [done|].
  rewrite (for_collect_pure _ (λ item, subject_items (triples_of w g) item schema)).
  - rewrite <- collect_decode. by destruct (collect _ (elements id_pool)).
  - intros item. unfold bind, Graph_predicate_objects, lift, subject_items, id_attrs.
    by destruct (fold_stmts _ _ schema).
Qed.

Lemma to_builtin_identifier_run g i schema w :
  i ≠ "" →
  to_builtin g (Some i) schema w
  = match (_get_subjects g (Some i) schema w).1 with
    | inl e => (inl e, w)
    | inr _ =>
        match decode_subject (triples_of w g) (make_ref i) schema with
        | inl e => (inl e, w)
        | inr m => (inr [m], w)
        end
    end.
Proof.
  intros Hi. rewrite to_builtin_run, get_subjects_by_identifier by done.
  destruct (store_contains (Some (make_ref i), None, None) (triples_of w g)); [|done].
  assert (collect (λ item, decode_subject (triples_of w g) item schema)
            (elements ({[ make_ref i ]} : gset node))
          = match decode_subject (triples_of w g) (make_ref i) schema with
            | inl e => inl e
            | inr m => inr [m]
            end) as Hone.
  { rewrite elements_singleton. simpl. by destruct (decode_subject _ _ _). }
  destruct schema as [sch|]; simpl.
  - destruct (store_contains _ (triples_of w g)); simpl; [|done].
    rewrite Hone. by destruct (decode_subject _ _ _).
  - rewrite Hone. by destruct (decode_subject _ _ _).
Qed.

Lemma to_struct_run g i cls schema w :
  to_struct g i cls schema w
  = match (to_builtin g (Some i) (Some (struct_schema cls schema)) w).1 with
    | inl e => (inl e, w)
    | inr [] => (inl (Exn IndexError "list index out of range"), w)
    | inr (d :: _) => (msgspec_convert d cls, w)
    end.
Proof.
  unfold to_struct, bind.
  pose proof (read_only_to_builtin g (Some i) (Some (struct_schema cls schema)) w) as Hro.
  unfold struct_schema in *.
  destruct (to_builtin g (Some i) _ w) as [[e|[|d ms]] w']; simpl in *; by subst w'.
Qed.

(** C10.  An identifier that is falsy (absent, or the empty text) is treated
    as no identifier at all: the resolver and [to_builtin] behave as they do
    without one.  The resolver raises nothing and returns the subjects found
    by [rdf:type], each as the URI reference with its text: those typed with
    the schema's resource when a schema is given, those that carry any
    [rdf:type] otherwise.  [to_builtin] then decodes each of these subjects
    in turn and returns their mappings, or raises what the first failing one
    raises; and it is no not-found error. *)
Theorem falsy_identifier_as_absent (w : world) (g : graph_ref)
    (identifier : option string) (schema : option Schema) :
  truthy_id identifier = false →
  _get_subjects g identifier schema w = _get_subjects g None schema w
  ∧ to_builtin g identifier schema w = to_builtin g None schema w
  ∧ ∃ X, _get_subjects g identifier schema w = (inr X, w)
       ∧ (∀ x, x ∈ X ↔
            ∃ s r, (s, RDF_type, r) ∈ triples_of w g
                   ∧ (∀ sch, schema = Some sch → r = rdf_resource sch)
                   ∧ x = URIRef (node_str s))
       ∧ to_builtin g identifier schema w
         = (collect (λ item, decode_subject (triples_of w g) item schema) (elements X), w).
Proof.
  intros Hf.
  assert (_get_subjects g identifier schema = _get_subjects g None schema) as Heq.
  { unfold _get_subjects. by rewrite Hf. }
  split_and!.
  - by rewrite Heq.
  - unfold to_builtin. by rewrite Heq.
  - eexists. split; [by apply get_subjects_by_type|]. split_and!.
    + intros x. rewrite elem_of_list_to_set, list_elem_of_fmap. split.
      * intros (s & -> & Hs). apply elem_of_store_subjects_typed in Hs as (r & Hin & Hr).
        exists s, r. split_and!; [done| |done].
        intros sch ->. by apply Hr.
      * intros (s & r & Hin & Hr & ->). exists s. split; [done|].
        apply elem_of_store_subjects_typed. exists r. split; [done|].
        intros r' Hr'. destruct schema as [sch|]; [|done].
        injection Hr' as <-. by apply Hr.
    + by rewrite to_builtin_run, get_subjects_by_type.
Qed.

(** * The encoder *)

Lemma grows_refl g0 about w : grows g0 about w w.
Proof. split; auto. Qed.

Lemma grows_trans g0 about w1 w2 w3 :
  grows g0 about w1 w2 → grows g0 about w2 w3 → grows g0 about w1 w3.
Proof.
  intros [H1 H1'] [H2 H2']. split; [by auto|].
  intros g t Ht. destruct (H2' g t Ht) as [Ht2|?]; [by apply H1'|by right].
Qed.

Lemma elem_of_add_objects about p objs : ∀ g t,
  t ∈ add_objects about p objs g ↔ t ∈ g ∨ ∃ o, o ∈ objs ∧ t = (about, p, o).
Proof.
  unfold add_objects. induction objs as [|o objs IH]; intros g t; simpl.
  - split; [by left|]. intros [?|(o & Ho & _)]; [done|by apply elem_of_nil in Ho].
  - rewrite IH, elem_of_store_add. split.
    + intros [[?| ->]|(o' & Ho & ->)]; [by left|right|right].
      * exists o. split; [left|done].
      * exists o'. split; [by right|done].
    + intros [?|(o' & Ho & ->)]; [by left; left|].
      apply elem_of_cons in Ho as [->|Ho]; [by left; right|].
      right. by exists o'.
Qed.

Lemma triples_of_ext w w' g :
  graphs w' !! g = graphs w !! g → triples_of w' g = triples_of w g.
Proof. intros H. unfold triples_of. by rewrite H. Qed.

Lemma emitted_grows d p w objs w' :
  emitted d p w objs w' → grows (d_graph d) (d_about d) w w'.
Proof.
  intros [Hg Hoth]. split; intros g t Ht.
  - destruct (decide (g = d_graph d)) as [->|Hne].
    + rewrite Hg. apply elem_of_add_objects. by left.
    + by rewrite (triples_of_ext _ _ _ (Hoth g Hne)).
  - destruct (decide (g = d_graph d)) as [->|Hne].
    + rewrite Hg in Ht. apply elem_of_add_objects in Ht as [?|(o & _ & ->)]; [by left|].
      by right.
    + left. by rewrite <- (triples_of_ext _ _ _ (Hoth g Hne)).
Qed.

Lemma emit_field_grows s d ni w :
  grows (d_graph d) (d_about d) w (emit_field s d ni w).2.
Proof.
  unfold emit_field, bind, get_key_or_attribute_strict.
  destruct (st_attrs s !! ni.1) as [v|]; simpl; [|apply grows_refl].
  destruct (describer_add_value_spec d ni.2 v w) as (objs & w' & -> & _ & Hem).
  simpl. by eapply emitted_grows.
Qed.

Lemma emit_fields_grows s d fields : ∀ w,
  grows (d_graph d) (d_about d) w (for_each (emit_field s d) fields w).2.
Proof.
  induction fields as [|ni fields IH]; intros w; [apply grows_refl|].
  simpl. unfold bind at 1.
  pose proof (emit_field_grows s d ni w) as H1.
  destruct (emit_field s d ni w) as [[e|[]] w1]; simpl in *; [done|].
  eapply grows_trans; [exact H1|apply IH].
Qed.

Lemma triples_of_Graph_new w g :
  triples_of (World (<[fresh (dom (graphs w)) := []]> (graphs w)) (bnodes w)) g
  = triples_of w g.
Proof.
  unfold triples_of. simpl.
  destruct (decide (g = fresh (dom (graphs w)))) as [->|Hne].
  - rewrite lookup_insert_eq. simpl.
    pose proof (fresh_graph_not_live w) as Hf.
    apply not_elem_of_dom in Hf. by rewrite Hf.
  - by rewrite lookup_insert_ne.
Qed.

Section EncoderFacts.

Variable validate_schema : struct → Schema → option exn.

Lemma triples_of_with_target graph w g :
  triples_of (with_target graph w) g = triples_of w g.
Proof. destruct graph; [done|apply triples_of_Graph_new]. Qed.

Lemma from_struct_no_schema s schema graph identifier w e :
  chosen_schema validate_schema s schema = inl e →
  from_struct validate_schema s schema graph identifier w = (inl e, w).
Proof.
  unfold chosen_schema, from_struct, bind. intros H.
  destruct schema as [sch|].
  - destruct (validate_schema s sch); [|done]. by injection H as ->.
  - destruct (st_schema s); [done|]. by injection H as <-.
Qed.

Lemma from_struct_no_id s schema graph identifier w sch :
  chosen_schema validate_schema s schema = inr sch →
  instance_id_of s = PNone →
  from_struct validate_schema s schema graph identifier w
  = (inl (Exn ValueError "Missing ID/id field in object in from_struct operation"),
     with_target graph w).
Proof.
  unfold chosen_schema, from_struct, instance_id_of, bind. intros H Hid.
  assert (is_not_None (get_key_or_attribute "ID" s) = false
          ∧ is_not_None (get_key_or_attribute "id" s) = false) as [H1 H2].
  { destruct (get_key_or_attribute "ID" s); simpl in *; rewrite ?Hid; done. }
  rewrite H1, H2.
  destruct schema as [sch'|].
  - destruct (validate_schema s sch'); [done|]. simpl. by destruct graph.
  - destruct (st_schema s); [|done]. simpl. by destruct graph.
Qed.

Lemma from_struct_with_id s schema graph identifier w sch :
  chosen_schema validate_schema s schema = inr sch →
  instance_id_of s ≠ PNone →
  from_struct validate_schema s schema graph identifier w
  = (describer <- Describer_new (target_graph graph w) (instance_id_of s) ;;
     rdftype describer (rdf_resource sch) ;;
     for_each (emit_field s describer) (name_mapping sch) ;;
     ret (target_graph graph w)) (with_target graph w).
Proof.
  unfold chosen_schema, from_struct, instance_id_of. intros H Hid.
  assert ((if is_not_None (get_key_or_attribute "ID" s)
           then ret (get_key_or_attribute "ID" s)
           else if is_not_None (get_key_or_attribute "id" s)
                then ret (get_key_or_attribute "id" s)
                else raise ValueError
                       "Missing ID/id field in object in from_struct operation")
          = ret (if is_not_None (get_key_or_attribute "ID" s)
                 then get_key_or_attribute "ID" s
                 else get_key_or_attribute "id" s)) as ->.
  { destruct (is_not_None (get_key_or_attribute "ID" s)) eqn:H1; [done|].
    destruct (get_key_or_attribute "id" s) eqn:H2; done. }
  unfold bind at 1.
  destruct schema as [sch'|].
  - destruct (validate_schema s sch'); [done|]. injection H as ->.
    simpl. unfold bind at 1. by destruct graph.
  - destruct (st_schema s); [|done]. injection H as ->.
    simpl. unfold bind at 1. by destruct graph.
Qed.

Lemma Describer_new_run g v w :
  castable v = true →
  ∃ w1, Describer_new g v w = (inr {| d_graph := g; d_about := subject_for v w |}, w1)
        ∧ graphs w1 = graphs w.
Proof.
  intros Hc. unfold Describer_new, bind, subject_for.
  rewrite cast_identifier_run, Hc.
  destruct (truthy v); simpl; eauto.
Qed.

Lemma Describer_new_refused g v w :
  castable v = false →
  Describer_new g v w = (inl (Exn TypeError "argument of type 'int' is not iterable"), w).
Proof.
  intros Hc. unfold Describer_new, bind. by rewrite cast_identifier_run, Hc.
Qed.

Lemma from_struct_refused s schema graph identifier w sch :
  chosen_schema validate_schema s schema = inr sch →
  instance_id_of s ≠ PNone →
  castable (instance_id_of s) = false →
  from_struct validate_schema s schema graph identifier w
  = (inl (Exn TypeError "argument of type 'int' is not iterable"), with_target graph w).
Proof.
  intros Hsch Hid Hc. rewrite (from_struct_with_id _ _ _ _ _ _ Hsch Hid).
  unfold bind at 1. by rewrite (Describer_new_refused _ _ _ Hc).
Qed.

Lemma from_struct_outcome s schema graph identifier w sch :
  chosen_schema validate_schema s schema = inr sch →
  instance_id_of s ≠ PNone →
  castable (instance_id_of s) = true →
  ∃ r w', from_struct validate_schema s schema graph identifier w = (r, w')
          ∧ grows (target_graph graph w) (subject_for (instance_id_of s) w) w w'
          ∧ (subject_for (instance_id_of s) w, RDF_type, rdf_resource sch)
              ∈ triples_of w' (target_graph graph w).
Proof.
  intros Hsch Hid Hc. rewrite (from_struct_with_id _ _ _ _ _ _ Hsch Hid).
  set (w0 := with_target graph w). set (g0 := target_graph graph w).
  set (subject := subject_for (instance_id_of s) w).
  destruct (Describer_new_run g0 (instance_id_of s) w0 Hc) as (w1 & Hd & Hg1).
  unfold bind at 1. rewrite Hd.
  assert (subject_for (instance_id_of s) w0 = subject) as ->.
  { unfold subject, subject_for, w0. by destruct graph. }
  set (d := {| d_graph := g0; d_about := subject |}).
  unfold bind at 1.
  destruct (Graph_add_emitted d RDF_type (rdf_resource sch) w1) as (w2 & Hadd & Hem).
  unfold rdftype. rewrite Hadd.
  assert (grows g0 subject w w2) as Hgrow2.
  { apply emitted_grows in Hem. destruct Hem as [Ha Hb]. split; intros g t Ht.
    - apply Ha. unfold triples_of. rewrite Hg1. fold (triples_of w0 g).
      unfold w0. by rewrite triples_of_with_target.
    - destruct (Hb g t Ht) as [Ht'|?]; [left|by right].
      unfold triples_of in Ht'. rewrite Hg1 in Ht'. fold (triples_of w0 g) in Ht'.
      unfold w0 in Ht'. by rewrite triples_of_with_target in Ht'. }
  assert ((subject, RDF_type, rdf_resource sch) ∈ triples_of w2 g0) as Htype.
  { destruct Hem as [Heq _]. unfold d in Heq. simpl in Heq. rewrite Heq.
    apply elem_of_store_add. by right. }
  pose proof (emit_fields_grows s d (name_mapping sch) w2) as Hloop.
  unfold bind at 1.
  destruct (for_each (emit_field s d) (name_mapping sch) w2) as [[e|[]] w3];
    simpl in Hloop.
  - exists (inl e), w3. split_and!; [done| |apply (proj1 Hloop), Htype].
    by eapply grows_trans.
  - exists (inr g0), w3. split_and!; [done| |apply (proj1 Hloop), Htype].
    by eapply grows_trans.
Qed.

(** C6.  When the value under ["ID"] is not [None] it alone decides the
    subject, whatever the record holds under ["id"]: every statement
    [from_struct] writes is about the subject the describer makes of that
    value, which is the URI reference with its text when the value is truthy
    and a new blank node when it is falsy; once a schema is chosen, the type
    statement about that subject is in the target graph, unless the value is
    an integer other than [0], on which [from_struct] raises [TypeError] and
    no graph gains a statement.  When the record has neither ["ID"] nor
    ["id"], [from_struct] raises and no graph gains a statement; past the
    choice of the schema the exception is the [ValueError] about the missing
    identifier. *)
Theorem from_struct_identifier_precedence (s : struct) (schema : option Schema)
    (graph : option graph_ref) (identifier : option string) (w : world) :
  (get_key_or_attribute "ID" s ≠ PNone →
     let primary := get_key_or_attribute "ID" s in
     let subject := subject_for primary w in
     let out := from_struct validate_schema s schema graph identifier w in
     (truthy primary = true → subject = URIRef (py_str primary))
     ∧ (truthy primary = false → subject = BNode ("N" +:+ pretty (bnodes w)))
     ∧ (∀ g t, t ∈ triples_of out.2 g → t ∈ triples_of w g ∨ subject_of t = subject)
     ∧ (∀ sch, chosen_schema validate_schema s schema = inr sch →
          (castable primary = true →
             (subject, RDF_type, rdf_resource sch) ∈ triples_of out.2 (target_graph graph w))
          ∧ (castable primary = false →
               (∃ e, out.1 = inl e ∧ exn_kind e = TypeError)
               ∧ ∀ g t, t ∈ triples_of out.2 g → t ∈ triples_of w g)))
  ∧ (get_key_or_attribute "ID" s = PNone → get_key_or_attribute "id" s = PNone →
     let out := from_struct validate_schema s schema graph identifier w in
     (∃ e, out.1 = inl e)
     ∧ (∀ g t, t ∈ triples_of out.2 g → t ∈ triples_of w g)
     ∧ (∀ sch, chosen_schema validate_schema s schema = inr sch →
          out.1 = inl (Exn ValueError
                         "Missing ID/id field in object in from_struct operation"))).
Proof.
  split.
  - intros Hid primary subject out.
    assert (instance_id_of s = primary) as Hinst.
    { unfold instance_id_of, primary. by destruct (get_key_or_attribute "ID" s). }
    split; [by unfold subject, subject_for; intros ->|].
    split; [by unfold subject, subject_for; intros ->|].
    destruct (chosen_schema validate_schema s schema) as [e|sch] eqn:Hsch.
    { unfold out. rewrite (from_struct_no_schema _ _ _ _ _ _ Hsch). simpl.
      split; [by left|]. intros sch [=]. }
    assert (instance_id_of s ≠ PNone) as Hid' by (by rewrite Hinst).
    destruct (castable primary) eqn:Hc.
    + rewrite <- Hinst in Hc.
      destruct (from_struct_outcome s schema graph identifier w sch Hsch Hid' Hc)
        as (r & w' & Hrun & [Ha Hb] & Htype).
      rewrite Hinst in Hb, Htype. unfold out. rewrite Hrun. simpl. split.
      * intros g t Ht. destruct (Hb g t Ht) as [?|[_ ?]]; auto.
      * intros sch' [= <-]. split; [intros _; exact Htype|done].
    + rewrite <- Hinst in Hc. unfold out.
      rewrite (from_struct_refused _ _ _ _ _ _ Hsch Hid' Hc). simpl.
      assert (∀ g t, t ∈ triples_of (with_target graph w) g → t ∈ triples_of w g) as Hsame.
      { intros g t. by rewrite triples_of_with_target. }
      split; [intros g t Ht; left; by apply Hsame|].
      intros sch' _. split; [done|]. split; [eauto|exact Hsame].
  - intros H1 H2 out.
    assert (instance_id_of s = PNone) as Hinst.
    { unfold instance_id_of. rewrite H1. simpl. exact H2. }
    destruct (chosen_schema validate_schema s schema) as [e|sch] eqn:Hsch.
    + unfold out. rewrite (from_struct_no_schema _ _ _ _ _ _ Hsch). simpl.
      split_and!; [eauto|done|]. intros sch [=].
    + unfold out. rewrite (from_struct_no_id _ _ _ _ _ _ Hsch Hinst). simpl.
      split_and!; [eauto| |done].
      intros g t. by rewrite triples_of_with_target.
Qed.

End EncoderFacts.

(** * The codec *)

Lemma dict_to_builtins_snoc items k v :
  dict_to_builtins (items ++ [(k, v)])
  = <[key_str k := obj_to_builtin v]> (dict_to_builtins items).
Proof. unfold dict_to_builtins. by rewrite foldl_app. Qed.

Lemma dict_to_builtins_None items s :
  (∀ k v, (k, v) ∈ items → key_str k ≠ s) → dict_to_builtins items !! s = None.
Proof.
  induction items as [|[k v] items IH] using rev_ind; intros Hall; [done|].
  rewrite dict_to_builtins_snoc, lookup_insert_ne.
  - apply IH. intros k' v' Hin. apply (Hall k' v'), elem_of_app. by left.
  - apply (Hall k v), elem_of_app. right. left.
Qed.

Lemma dict_to_builtins_Some items k v :
  (k, v) ∈ items →
  (∀ k' v', (k', v') ∈ items → key_str k' = key_str k → k' = k ∧ v' = v) →
  dict_to_builtins items !! key_str k = Some (obj_to_builtin v).
Proof.
  induction items as [|[k0 v0] items IH] using rev_ind; intros Hin Hall;
    [by apply elem_of_nil in Hin|].
  rewrite dict_to_builtins_snoc.
  destruct (decide (key_str k0 = key_str k)) as [Heq|Hne].
  - destruct (Hall k0 v0) as [-> ->]; [apply elem_of_app; right; left|done|].
    by rewrite lookup_insert_eq.
  - rewrite lookup_insert_ne by done. apply IH.
    + apply elem_of_app in Hin as [Hin|Hin]; [done|].
      apply list_elem_of_singleton in Hin. congruence.
    + intros k' v' Hin'. apply Hall, elem_of_app. by left.
Qed.

Lemma elem_of_dict_items written d k v :
  (k, v) ∈ dict_items written d ↔ k ∈ written ∧ d !! k = Some v.
Proof.
  unfold dict_items. rewrite list_elem_of_omap. split.
  - intros (k' & Hin & Hk). apply (proj1 (elem_of_unique _ _)) in Hin.
    destruct (d !! k') as [v'|] eqn:Hd; simpl in Hk; [|done].
    injection Hk as -> ->. done.
  - intros [Hin Hd]. exists k. split; [by apply elem_of_unique|]. by rewrite Hd.
Qed.

Lemma dict_lookup_unique written d k :
  (∀ k', k' ∈ written → is_Some (d !! k') → key_str k' = key_str k → k' = k) →
  (is_Some (d !! k) → k ∈ written) →
  dict_to_builtins (dict_items written d) !! key_str k = obj_to_builtin <$> d !! k.
Proof.
  intros Huniq Hdom. destruct (d !! k) as [v|] eqn:Hv; simpl.
  - apply (dict_to_builtins_Some _ k v).
    + apply elem_of_dict_items. split; [apply Hdom; eauto|done].
    + intros k' v' Hin Heq. apply elem_of_dict_items in Hin as [Hk' Hv'].
      assert (k' = k) as -> by (apply Huniq; [done|by rewrite Hv'|done]).
      split; [done|congruence].
  - apply dict_to_builtins_None. intros k' v' Hin Heq.
    apply elem_of_dict_items in Hin as [Hk' Hv'].
    assert (k' = k) as -> by (apply Huniq; [done|by rewrite Hv'|done]).
    congruence.
Qed.

Lemma dict_to_builtins_from (acc : gmap string pyval) items s :
  foldl (λ acc kv, <[key_str kv.1 := obj_to_builtin kv.2]> acc) acc items !! s
  = match dict_to_builtins items !! s with
    | Some v => Some v
    | None => acc !! s
    end.
Proof.
  revert acc. induction items as [|[k v] items IH]; intros acc; [done|].
  unfold dict_to_builtins. simpl. rewrite !IH.
  destruct (dict_to_builtins items !! s); [done|].
  destruct (decide (key_str k = s)) as [->|Hne].
  - by rewrite !lookup_insert_eq.
  - by rewrite !lookup_insert_ne.
Qed.

Lemma dict_to_builtins_cons k v items s :
  dict_to_builtins ((k, v) :: items) !! s
  = match dict_to_builtins items !! s with
    | Some v' => Some v'
    | None => if decide (key_str k = s) then Some (obj_to_builtin v) else None
    end.
Proof.
  unfold dict_to_builtins at 1. simpl. rewrite dict_to_builtins_from.
  destruct (dict_to_builtins items !! s); [done|].
  destruct (decide (key_str k = s)) as [->|Hne].
  - by rewrite lookup_insert_eq.
  - by rewrite lookup_insert_ne.
Qed.

Lemma stmt_key_schema p sch k : stmt_key p (Some sch) = Some k → ∃ f, k = KStr f.
Proof.
  unfold stmt_key. destruct (bool_decide (p = RDF_type)); [done|].
  destruct (ref_mapping sch !! p) as [f|]; [|done]. intros [= <-]. eauto.
Qed.

Lemma update_keys p v a schema a1 k :
  _update_attrs_from_stmt p v a schema = inr a1 →
  is_Some (a1 !! k) → is_Some (a !! k) ∨ stmt_key p schema = Some k.
Proof.
  unfold _update_attrs_from_stmt, stmt_key.
  destruct (bool_decide (p = RDF_type)); [intros [= <-]; by left|].
  assert (∀ (k0 : dkey) (x : pyobj), is_Some (<[k0 := x]> a !! k) →
            is_Some (a !! k) ∨ Some k0 = Some k) as Hins.
  { intros k0 x. destruct (decide (k0 = k)) as [->|Hne]; [by right|].
    rewrite lookup_insert_ne by done. by left. }
  destruct schema as [sch|].
  - destruct (ref_mapping sch !! p) as [f|]; [|done]. simpl.
    destruct (attrs sch !! f) as [info|]; [|done].
    destruct (repeat info).
    + destruct (a !! KStr f) as [[| |items]|]; try done; intros [= <-]; apply Hins.
    + destruct (a !! KStr f); [done|]. intros [= <-]. apply Hins.
  - destruct (a !! KRef p) as [[| |items]|]; intros [= <-]; apply Hins.
Qed.

Lemma fold_keys stmts schema k : ∀ a a',
  fold_stmts stmts a schema = inr a' →
  is_Some (a' !! k) →
  is_Some (a !! k) ∨ k ∈ omap (λ po, stmt_key po.1 schema) stmts.
Proof.
  induction stmts as [|[p v] stmts IH]; intros a a'; simpl.
  - intros [= <-]. by left.
  - destruct (_update_attrs_from_stmt p v a schema) as [e|a1] eqn:Hup; [done|].
    intros Hfold Hk. destruct (IH a1 a' Hfold Hk) as [H1|Hin].
    + destruct (update_keys p v a schema a1 k Hup H1) as [?|Hkey]; [by left|].
      right. rewrite Hkey. left.
    + right. destruct (stmt_key p schema); [by right|done].
Qed.


Lemma update_schema_keeps_id sch p v a a' s :
  a !! KStr "id" = Some (OStr s) →
  _update_attrs_from_stmt p v a (Some sch) = inr a' →
  a' !! KStr "id" = Some (OStr s)
  ∧ (p = RDF_type ∨ ∃ f, ref_mapping sch !! p = Some f ∧ f ≠ "id" ∧ is_Some (attrs sch !! f)).
Proof.
  intros Hid. unfold _update_attrs_from_stmt.
  destruct (bool_decide (p = RDF_type)) eqn:Hp.
  { apply bool_decide_eq_true in Hp. intros [= <-]. auto. }
  destruct (ref_mapping sch !! p) as [f|]; [|done].
  destruct (attrs sch !! f) as [info|] eqn:Hinfo; [|done].
  destruct (decide (f = "id")) as [->|Hne].
  - rewrite Hid. by destruct (repeat info).
  - intros Hstep.
    assert (∃ o, a' = <[KStr f := o]> a) as (o & ->).
    { destruct (repeat info); destruct (a !! KStr f) as [[| |items]|];
        try done; injection Hstep as <-; eauto. }
    rewrite lookup_insert_ne by congruence. split; [done|]. right. exists f. eauto.
Qed.

Lemma fold_schema_keeps_id sch stmts : ∀ a a' s,
  a !! KStr "id" = Some (OStr s) →
  fold_stmts stmts a (Some sch) = inr a' →
  a' !! KStr "id" = Some (OStr s)
  ∧ ∀ p v, (p, v) ∈ stmts →
      p = RDF_type ∨ ∃ f, ref_mapping sch !! p = Some f ∧ f ≠ "id" ∧ is_Some (attrs sch !! f).
Proof.
  induction stmts as [|[q u] stmts IH]; intros a a' s Hid Hfold.
  - injection Hfold as <-. split; [done|]. intros p v Hin. by apply elem_of_nil in Hin.
  - simpl in Hfold.
    destruct (_update_attrs_from_stmt q u a (Some sch)) as [e|a1] eqn:Hstep; [done|].
    destruct (update_schema_keeps_id _ _ _ _ _ _ Hid Hstep) as [Hid1 Hq].
    destruct (IH _ _ _ Hid1 Hfold) as [Hid' Hrest]. split; [done|].
    intros p v Hin. apply elem_of_cons in Hin as [[= -> ->]|Hin]; eauto.
Qed.





(** * The round trip *)



Lemma fits_truthy a : fits IDRef a → truthy (PAtom a) = true.
Proof.
  intros (s & -> & Hs). simpl. by rewrite bool_decide_eq_false_2.
Qed.

Lemma fits_accepted k a : fits k a → accepted k a = true.
Proof. destruct k as [|dt]; [|done]. by intros (s & -> & _). Qed.

Lemma Forall_fits_accepted k atoms :
  Forall (fits k) atoms → Forall (λ a, accepted k a = true) atoms.
Proof. intros H. eapply Forall_impl; [exact H|]. intros a. apply fits_accepted. Qed.

Lemma emits_encode k a o : fits k a → emits k a o → o = encode k a.
Proof.
  destruct k as [|dt]; simpl; [|done].
  intros Hfit [_ Ho]. apply Ho. by apply fits_truthy.
Qed.

Lemma Forall2_emits_encode k atoms objs :
  Forall (fits k) atoms → Forall2 (emits k) atoms objs → objs = encode k <$> atoms.
Proof.
  intros Hfit H2. induction H2 as [|a o atoms objs Hao _ IH]; [done|].
  apply Forall_cons in Hfit as [Ha Hfit]. simpl.
  by rewrite (emits_encode _ _ _ Ha Hao), IH.
Qed.



Lemma unique_from_NoDup {A} `{EqDecision A} (l : list A) : ∀ seen,
  NoDup l → (∀ x, x ∈ l → x ∉ seen) → unique_from seen l = l.
Proof.
  induction l as [|x l IH]; intros seen Hnd Hdis; [done|].
  apply NoDup_cons in Hnd as [Hx Hnd]. simpl.
  rewrite bool_decide_eq_false_2 by (apply Hdis; left).
  rewrite IH; [done|done|].
  intros y Hy. rewrite not_elem_of_cons. split; [by intros ->|].
  apply Hdis. by right.
Qed.

Lemma unique_NoDup {A} `{EqDecision A} (l : list A) : NoDup l → unique l = l.
Proof.
  intros Hnd. apply unique_from_NoDup; [done|]. intros x _. apply not_elem_of_nil.
Qed.

Lemma foldl_store_add_NoDup (ts : list triple) : ∀ g,
  NoDup (g ++ ts) → foldl (λ g t, store_add t g) g ts = g ++ ts.
Proof.
  induction ts as [|t ts IH]; intros g Hnd; simpl.
  - by rewrite app_nil_r.
  - assert (store_add t g = g ++ [t]) as ->.
    { unfold store_add. rewrite bool_decide_eq_false_2; [done|].
      apply NoDup_app in Hnd as (_ & Hdis & _). intros Hin.
      apply (Hdis t Hin). left. }
    rewrite IH; [by rewrite <- app_assoc|]. by rewrite <- app_assoc.
Qed.

Lemma store_triples_about s (P : list (node * node)) :
  store_triples (Some s, None, None) (about_subject s <$> P) = about_subject s <$> P.
Proof.
  unfold store_triples. induction P as [|po P IH]; [done|].
  rewrite fmap_cons, filter_cons_True; [by rewrite IH|].
  apply Is_true_true, matches_subject. done.
Qed.

Lemma store_predicate_objects_about s (P : list (node * node)) :
  NoDup P → store_predicate_objects s (about_subject s <$> P) = P.
Proof.
  intros Hnd. unfold store_predicate_objects. rewrite store_triples_about.
  assert ((λ t, (predicate_of t, object_of t)) <$> (about_subject s <$> P) = P) as ->.
  { clear Hnd. induction P as [|[p o] P IH]; [done|]. by rewrite !fmap_cons, IH. }
  by apply unique_NoDup.
Qed.



Lemma get_key_or_attribute_Some r f v :
  st_attrs r !! f = Some v → get_key_or_attribute f r = v.
Proof. unfold get_key_or_attribute. by intros ->. Qed.




Lemma add_objects_stmts about p objs g :
  add_objects about p objs g
  = foldl (λ g t, store_add t g) g (about_subject about <$> ((λ o, (p, o)) <$> objs)).
Proof. unfold add_objects. by rewrite !foldl_fmap. Qed.



Section RoundTrip.

Variable validate_schema : struct → Schema → option exn.
















End RoundTrip.

(** * Worked instances *)

(** Encoding Alice into a fresh graph writes exactly four statements: the
    type, the name, and one relation per friend. *)
Example from_struct_alice_statements :
  from_struct accept alice (Some Person) None None w_empty = (inr 0, w_alice).
Proof. vm_compute. reflexivity. Qed.

(** Decoding Alice's graph under the [Person] schema. *)
Example to_builtin_alice_person :
  entries_of (to_builtin 0 (Some "ex:alice") (Some Person) w_alice)
  = inr [ [ ("id", PAtom (SStr "ex:alice"));
            ("name", PAtom (SStr "Alice"));
            ("friends", PList [PAtom (SStr "ex:bob"); PAtom (SStr "ex:carol")]) ] ].
Proof. vm_compute. reflexivity. Qed.

(** Decoding it without a schema groups by raw predicate, written as its
    text. *)
Example to_builtin_alice_raw :
  entries_of (to_builtin 0 None None w_alice)
  = inr [ [ ("ex:knows", PList [PAtom (SStr "ex:bob"); PAtom (SStr "ex:carol")]);
            ("ex:name", PAtom (SStr "Alice"));
            ("id", PAtom (SStr "ex:alice")) ] ].
Proof. vm_compute. reflexivity. Qed.

(** A second name is a cardinality violation. *)
Example fold_second_name_raises :
  fold_stmts (alice_pairs ++ [(URIRef "ex:name", Literal (SStr "Al") (Some XSD_string))])
    {[ KStr "id" := OStr "ex:alice" ]} (Some Person)
  = inl (Exn AnnotationError
           "Field: name not annotated with repeat, but receives collection like value").
Proof. vm_compute. reflexivity. Qed.

(** The same friend listed twice is written once. *)
Example from_struct_twin_statements :
  triples_of (from_struct accept twin (Some Person) None None w_empty).2 0
  = [ (URIRef "ex:alice", RDF_type, URIRef "ex:Person");
      (URIRef "ex:alice", URIRef "ex:name", Literal (SStr "Alice") (Some XSD_string));
      (URIRef "ex:alice", URIRef "ex:knows", URIRef "ex:bob") ].
Proof. vm_compute. reflexivity. Qed.

(** A typed blank node is resolved to a URI reference, which has no
    statements in the graph. *)
Example to_builtin_blank_node :
  entries_of (to_builtin 0 None (Some Person) w_blank)
  = inr [ [ ("id", PAtom (SStr "b1")) ] ].
Proof. vm_compute. reflexivity. Qed.

(** An identifier that is no subject, and one of another type. *)
Example get_subjects_failures :
  _get_subjects 0 (Some "ex:carol") (Some Person) w_alice
  = (inl (Exn ValueError "Identifier: ex:carol not in graph"), w_alice)
  ∧ _get_subjects 0 (Some "ex:alice") (Some Robot) w_alice
    = (inl (Exn ValueError
              "Object identified by id: ex:alice is not of type: ex:Robot in graph"),
       w_alice).
Proof. split; vm_compute; reflexivity. Qed.

Lemma fold_no_schema_alice :
  ∃ a', fold_stmts alice_pairs {[ KStr "id" := OStr "ex:alice" ]} None = inr a'
        ∧ fold_stmts (filter (λ po, po.1 ≠ RDF_type) alice_pairs)
            {[ KStr "id" := OStr "ex:alice" ]} None = inr a'
        ∧ a' !! KRef (URIRef "ex:knows")
          = grouped (values_of (URIRef "ex:knows") alice_pairs)
        ∧ a' !! KRef RDF_type
          = ({[ KStr "id" := OStr "ex:alice" ]} : gmap dkey pyobj) !! KRef RDF_type
        ∧ (∀ s, a' !! KStr s
                = ({[ KStr "id" := OStr "ex:alice" ]} : gmap dkey pyobj) !! KStr s).
Proof.
  apply (proj2 (fold_no_schema_groups {[ KStr "id" := OStr "ex:alice" ]}
                  (URIRef "ex:knows") (URIRef "ex:bob"))).
  - discriminate.
  - vm_compute. reflexivity.
Defined.

Lemma Person_addressed :
  addressed Person {[ KStr "id" := OStr "ex:alice" ]} alice_pairs.
Proof.
  intros p v Hin Hp. unfold alice_pairs in Hin.
  repeat (apply elem_of_cons in Hin as [Hin|Hin]; [injection Hin as -> ->|]).
  - done.
  - exists "name", name_info. split_and!; vm_compute; reflexivity.
  - exists "friends", knows_info. split_and!; vm_compute; reflexivity.
  - exists "friends", knows_info. split_and!; vm_compute; reflexivity.
  - by apply elem_of_nil in Hin.
Defined.

Lemma fold_schema_alice :
  ((∃ e, fold_stmts alice_pairs {[ KStr "id" := OStr "ex:alice" ]} (Some Person) = inl e) ↔
   (∃ f info, attrs Person !! f = Some info ∧ repeat info = false
              ∧ 2 ≤ length (values_for Person f alice_pairs)))
  ∧ (∀ e, fold_stmts alice_pairs {[ KStr "id" := OStr "ex:alice" ]} (Some Person) = inl e →
          exn_kind e = AnnotationError)
  ∧ (∀ a', fold_stmts alice_pairs {[ KStr "id" := OStr "ex:alice" ]} (Some Person) = inr a' →
       ∀ f info, attrs Person !! f = Some info →
         ({[ KStr "id" := OStr "ex:alice" ]} : gmap dkey pyobj) !! KStr f = None →
         a' !! KStr f =
         match values_for Person f alice_pairs with
         | [] => None
         | v :: more =>
             Some (if repeat info then OList (ONode v :: (ONode <$> more)) else ONode v)
         end).
Proof.
  apply (proj2 (fold_schema_cardinality Person {[ KStr "id" := OStr "ex:alice" ]})
           alice_pairs).
  exact Person_addressed.
Defined.

Lemma alice_is_subject : has_subject (make_ref "ex:alice") (triples_of w_alice 0).
Proof.
  exists RDF_type, (URIRef "ex:Person"). vm_compute. left.
Defined.

Lemma carol_is_no_subject : ¬ has_subject (make_ref "ex:carol") (triples_of w_alice 0).
Proof.
  intros Hs. apply store_contains_subject in Hs. vm_compute in Hs. discriminate.
Defined.

Lemma get_subjects_alice :
  _get_subjects 0 (Some "ex:alice") None w_alice = (inr {[ make_ref "ex:alice" ]}, w_alice)
  ∧ _get_subjects 0 (Some "ex:carol") None w_alice
    = (inl (Exn ValueError ("Identifier: " +:+ "ex:carol" +:+ " not in graph")), w_alice).
Proof.
  split.
  - apply (proj1 (get_subjects_resolution w_alice 0) "ex:alice"); [discriminate|].
    exact alice_is_subject.
  - apply (proj1 (get_subjects_resolution w_alice 0) "ex:carol"); [discriminate|].
    exact carol_is_no_subject.
Defined.

(** C2, at a typed blank node.  The graph types the blank node [b1] as a
    person; asked for the persons, the resolver returns the URI reference with
    the text [b1], which is the subject of no statement of the graph, and not
    the blank node: it does not return the subjects typed with the schema's
    resource. *)
Lemma get_subjects_blank_node :
  (BNode "b1", RDF_type, rdf_resource Person) ∈ triples_of w_blank 0
  ∧ _get_subjects 0 None (Some Person) w_blank = (inr {[ URIRef "b1" ]}, w_blank)
  ∧ ¬ has_subject (URIRef "b1") (triples_of w_blank 0)
  ∧ ¬ resolves_typed_subjects w_blank 0 Person.
Proof.
  assert (_get_subjects 0 None (Some Person) w_blank = (inr {[ URIRef "b1" ]}, w_blank))
    as Hrun' by (vm_compute; reflexivity).
  split_and!.
  - vm_compute. left.
  - exact Hrun'.
  - intros Hs. apply store_contains_subject in Hs. vm_compute in Hs. discriminate Hs.
  - intros (X & Hrun & Hiff).
    assert (BNode "b1" ∈ X) as Hin.
    { apply Hiff. vm_compute. left. }
    assert (X = {[ URIRef "b1" ]}) as ->.
    { rewrite Hrun' in Hrun. by injection Hrun as <-. }
    apply elem_of_singleton in Hin. discriminate.
Qed.

Lemma alice_is_no_robot :
  (make_ref "ex:alice", RDF_type, rdf_resource Robot) ∉ triples_of w_alice 0.
Proof.
  intros Hin. apply store_contains_exact in Hin. vm_compute in Hin. discriminate.
Defined.

Lemma get_subjects_alice_robot :
  ∃ mismatch,
    _get_subjects 0 (Some "ex:alice") (Some Robot) w_alice
    = (inl (Exn ValueError mismatch), w_alice)
    ∧ mismatch = "Object identified by id: " +:+ "ex:alice" +:+ " is not of type: "
                 +:+ node_str (rdf_resource Robot) +:+ " in graph"
    ∧ ∀ w' g', ¬ has_subject (make_ref "ex:alice") (triples_of w' g') →
        ∃ missing,
          _get_subjects g' (Some "ex:alice") (Some Robot) w'
          = (inl (Exn ValueError missing), w')
          ∧ missing = "Identifier: " +:+ "ex:alice" +:+ " not in graph"
          ∧ missing ≠ mismatch.
Proof.
  apply (get_subjects_type_mismatch w_alice 0 "ex:alice" Robot).
  - discriminate.
  - exact alice_is_subject.
  - exact alice_is_no_robot.
Defined.

Lemma mismatch_has_the_not_found_kind :
  ¬ mismatch_is_distinct_kind w_alice 0 "ex:alice" Robot.
Proof.
  intros (e & Hrun & Hall).
  assert (_get_subjects 0 (Some "ex:alice") (Some Robot) w_alice
          = (inl (Exn ValueError
                    "Object identified by id: ex:alice is not of type: ex:Robot in graph"),
             w_alice)) as Hrun1 by (vm_compute; reflexivity).
  assert (_get_subjects 0 (Some "ex:carol") (Some Robot) w_alice
          = (inl (Exn ValueError "Identifier: ex:carol not in graph"), w_alice)) as Hrun2
    by (vm_compute; reflexivity).
  rewrite Hrun1 in Hrun. injection Hrun as <-.
  apply (Hall w_alice 0 "ex:carol" _ carol_is_no_subject Hrun2). reflexivity.
Qed.

Lemma falsy_identifier_empty_text :
  _get_subjects 0 (Some "") (Some Person) w_alice
  = _get_subjects 0 None (Some Person) w_alice
  ∧ to_builtin 0 (Some "") (Some Person) w_alice = to_builtin 0 None (Some Person) w_alice
  ∧ ∃ X, _get_subjects 0 (Some "") (Some Person) w_alice = (inr X, w_alice)
       ∧ (∀ x, x ∈ X ↔
            ∃ s r, (s, RDF_type, r) ∈ triples_of w_alice 0
                   ∧ (∀ sch, Some Person = Some sch → r = rdf_resource sch)
                   ∧ x = URIRef (node_str s))
       ∧ to_builtin 0 (Some "") (Some Person) w_alice
         = (collect (λ item, decode_subject (triples_of w_alice 0) item (Some Person))
              (elements X), w_alice).
Proof.
  apply (falsy_identifier_as_absent w_alice 0 (Some "") (Some Person)). reflexivity.
Defined.

Lemma sub_graph_alice :
  ∃ sub w', sub_graph 0 "ex:alice" w_alice = (inr sub, w')
    ∧ (sub ∉ dom (graphs w_alice))
    ∧ sub ≠ 0
    ∧ (∀ g', g' ≠ sub → graphs w' !! g' = graphs w_alice !! g')
    ∧ NoDup (triples_of w' sub)
    ∧ ∀ t, t ∈ triples_of w' sub ↔
           subject_of t = make_ref "ex:alice" ∧ t ∈ triples_of w_alice 0.
Proof.
  apply (proj2 (sub_graph_extracts w_alice 0 "ex:alice")). exact alice_is_subject.
Defined.

Lemma from_struct_alice_both :
  (let primary := get_key_or_attribute "ID" alice_both in
   let subject := subject_for primary w_empty in
   let out := from_struct accept alice_both (Some Person) None None w_empty in
   (truthy primary = true → subject = URIRef (py_str primary))
   ∧ (truthy primary = false → subject = BNode ("N" +:+ pretty (bnodes w_empty)))
   ∧ (∀ g t, t ∈ triples_of out.2 g → t ∈ triples_of w_empty g ∨ subject_of t = subject)
   ∧ (∀ sch, chosen_schema accept alice_both (Some Person) = inr sch →
        (castable primary = true →
           (subject, RDF_type, rdf_resource sch)
             ∈ triples_of out.2 (target_graph None w_empty))
        ∧ (castable primary = false →
             (∃ e, out.1 = inl e ∧ exn_kind e = TypeError)
             ∧ ∀ g t, t ∈ triples_of out.2 g → t ∈ triples_of w_empty g)))
  ∧ (let out := from_struct accept nameless (Some Person) None None w_empty in
     (∃ e, out.1 = inl e)
     ∧ (∀ g t, t ∈ triples_of out.2 g → t ∈ triples_of w_empty g)
     ∧ (∀ sch, chosen_schema accept nameless (Some Person) = inr sch →
          out.1 = inl (Exn ValueError
                         "Missing ID/id field in object in from_struct operation"))).
Proof.
  split.
  - apply (proj1 (from_struct_identifier_precedence accept alice_both (Some Person)
                    None None w_empty)).
    vm_compute. discriminate.
  - apply (proj2 (from_struct_identifier_precedence accept nameless (Some Person)
                    None None w_empty)); vm_compute; reflexivity.
Defined.

Lemma from_struct_empty_primary :
  get_key_or_attribute "ID" alice_empty_id = PAtom (SStr "")
  ∧ get_key_or_attribute "id" alice_empty_id = PAtom (SStr "ex:other")
  ∧ ¬ primary_is_subject accept alice_empty_id Person w_empty.
Proof.
  split_and!; [vm_compute; reflexivity|vm_compute; reflexivity|].
  unfold primary_is_subject.
  assert (triples_of (from_struct accept alice_empty_id (Some Person) None None w_empty).2
            (target_graph None w_empty)
          = [ (BNode "N0", RDF_type, URIRef "ex:Person");
              (BNode "N0", URIRef "ex:name", Literal (SStr "Alice") (Some XSD_string));
              (BNode "N0", URIRef "ex:knows", URIRef "ex:bob");
              (BNode "N0", URIRef "ex:knows", URIRef "ex:carol") ]) as ->
    by (vm_compute; reflexivity).
  intros Hin.
  repeat (apply elem_of_cons in Hin as [Hin|Hin]; [discriminate Hin|]).
  by apply elem_of_nil in Hin.
Qed.

Lemma fold_reserved_id_breaks_contract :
  ¬ cardinality_contract Badge (URIRef "ex:alice")
      [ (URIRef "ex:name", Literal (SStr "Alice") (Some XSD_string)) ].
Proof.
  intros [Hraise _].
  destruct Hraise as (f & info & _ & _ & Hlen).
  { eexists. split; vm_compute; reflexivity. }
  unfold values_for in Hlen. rewrite length_fmap in Hlen.
  pose proof (length_filter
                (λ po : node * node, po.1 ≠ RDF_type ∧ ref_mapping Badge !! po.1 = Some f)
                [ (URIRef "ex:name", Literal (SStr "Alice") (Some XSD_string)) ]) as Hle.
  cbn [length] in Hle. lia.
Qed.









(** * Decoding: resolver, mappings and subgraphs *)

(** X1 ([_get_subjects]).  When a non-empty identifier and a schema are both
    given and the graph states that the identified subject has the schema's
    resource as its [rdf:type], the resolver returns the set holding just that
    subject and leaves the world as it was. *)
Theorem get_subjects_typed_identifier (w : world) (g : graph_ref) (i : string) (sch : Schema) :
  i ≠ "" →
  (make_ref i, RDF_type, rdf_resource sch) ∈ triples_of w g →
  _get_subjects g (Some i) (Some sch) w = (inr {[ make_ref i ]}, w).
Proof.
  intros Hi Hin. rewrite get_subjects_by_identifier by done.
  assert (store_contains (Some (make_ref i), None, None) (triples_of w g) = true) as ->.
  { apply store_contains_subject. by exists RDF_type, (rdf_resource sch). }
  assert (store_contains (Some (make_ref i), Some RDF_type, Some (rdf_resource sch))
            (triples_of w g) = true) as -> by (by apply store_contains_exact).
  done.
Qed.

Lemma store_subjects_none_typed (schema : option Schema) (T : store) :
  (∀ s o, (s, RDF_type, o) ∈ T → ∃ sch, schema = Some sch ∧ o ≠ rdf_resource sch) →
  store_subjects (Some RDF_type) (resource_of schema) T = [].
Proof.
  intros Hnone.
  destruct (store_subjects _ _ _) as [|s l] eqn:Hl; [done|]. exfalso.
  assert (s ∈ store_subjects (Some RDF_type) (resource_of schema) T) as Hs
    by (rewrite Hl; left).
  apply elem_of_store_subjects_typed in Hs as (r & Hin & Hr).
  destruct (Hnone s r Hin) as (sch & -> & Hne). apply Hne. by apply Hr.
Qed.

(** X2 ([to_builtin]).  Without a truthy identifier, decoding a graph in
    which no [rdf:type] statement names the schema's resource (no [rdf:type]
    statement at all when no schema is given) returns the empty list; it is
    no error. *)
Theorem to_builtin_nothing_typed (w : world) (g : graph_ref) (identifier : option string)
    (schema : option Schema) :
  truthy_id identifier = false →
  (∀ s o, (s, RDF_type, o) ∈ triples_of w g →
     ∃ sch, schema = Some sch ∧ o ≠ rdf_resource sch) →
  to_builtin g identifier schema w = (inr [], w).
Proof.
  intros Hf Hnone. rewrite to_builtin_run, get_subjects_by_type by done. simpl.
  rewrite (store_subjects_none_typed schema (triples_of w g) Hnone).
  simpl. by rewrite elements_empty.
Qed.

(** X3 ([to_builtin], [to_struct]).  With a non-empty identifier
    [to_builtin] returns, whenever it returns, a list of exactly one mapping;
    and every exception [to_builtin] raises under the schema [to_struct]
    works with is raised by [to_struct] as it is, in the same world. *)
Theorem to_builtin_identifier_single (w : world) (g : graph_ref) (i : string)
    (schema : option Schema) (cls : model_cls) :
  i ≠ "" →
  (∀ ms w', to_builtin g (Some i) schema w = (inr ms, w') → ∃ m, ms = [m])
  ∧ (∀ e w', to_builtin g (Some i) (Some (struct_schema cls schema)) w = (inl e, w') →
       to_struct g i cls schema w = (inl e, w')).
Proof.
  intros Hi.
  assert (∀ schema' ms w', to_builtin g (Some i) schema' w = (inr ms, w') → ∃ m, ms = [m])
    as Hone.
  { intros schema' ms w'. rewrite to_builtin_identifier_run by done.
    destruct ((_get_subjects g (Some i) schema' w).1); [done|].
    destruct (decode_subject _ _ _) as [e|m]; [done|]. intros [= <- _]. eauto. }
  split; [apply Hone|].
  intros e w' Hb. rewrite to_struct_run, Hb. simpl.
  pose proof (read_only_to_builtin g (Some i) (Some (struct_schema cls schema)) w) as Hro.
  rewrite Hb in Hro. simpl in Hro. by subst w'.
Qed.

(** X5 ([to_struct]).  With the empty text as identifier, on a graph that
    types no subject with the resource of the schema in use, [to_struct]
    raises [IndexError] from indexing the empty list of mappings; it is not
    the [ValueError] of an identifier missing from the graph. *)
Theorem to_struct_empty_identifier (w : world) (g : graph_ref) (cls : model_cls)
    (schema : option Schema) :
  (∀ s, (s, RDF_type, rdf_resource (struct_schema cls schema)) ∉ triples_of w g) →
  to_struct g "" cls schema w = (inl (Exn IndexError "list index out of range"), w).
Proof.
  intros Hnone. rewrite to_struct_run.
  rewrite to_builtin_run, get_subjects_by_type by done.
  rewrite (store_subjects_none_typed (Some (struct_schema cls schema)) (triples_of w g)).
  - simpl. by rewrite elements_empty.
  - intros s o Hin. eexists. split; [done|]. intros ->. by apply (Hnone s).
Qed.

(** X6 ([to_struct]).  With a non-empty identifier [to_struct] raises the
    resolver's [ValueError] unchanged: "Identifier: ... not in graph" when the
    graph has no statement about the subject, and "Object identified by id:
    ... is not of type: ... in graph" when it has some but not the type
    statement of the schema in use, which is the class schema when none is
    passed.  The world stays as it was. *)
Theorem to_struct_resolver_errors (w : world) (g : graph_ref) (i : string) (cls : model_cls)
    (schema : option Schema) :
  i ≠ "" →
  (¬ has_subject (make_ref i) (triples_of w g) →
     to_struct g i cls schema w
     = (inl (Exn ValueError ("Identifier: " +:+ i +:+ " not in graph")), w))
  ∧ (has_subject (make_ref i) (triples_of w g) →
     (make_ref i, RDF_type, rdf_resource (struct_schema cls schema)) ∉ triples_of w g →
     to_struct g i cls schema w
     = (inl (Exn ValueError
               ("Object identified by id: " +:+ i +:+ " is not of type: "
                +:+ node_str (rdf_resource (struct_schema cls schema)) +:+ " in graph")), w)).
Proof.
  intros Hi. split.
  - intros Hn. rewrite to_struct_run, to_builtin_identifier_run by done.
    rewrite get_subjects_by_identifier by done.
    destruct (store_contains (Some (make_ref i), None, None) (triples_of w g)) eqn:Hc;
      [|done].
    by apply store_contains_subject in Hc.
  - intros Hs Hnt. rewrite to_struct_run, to_builtin_identifier_run by done.
    rewrite get_subjects_by_identifier by done.
    apply store_contains_subject in Hs. rewrite Hs.
    destruct (store_contains (Some (make_ref i), Some RDF_type,
                              Some (rdf_resource (struct_schema cls schema)))
                (triples_of w g)) eqn:Hc; [|done].
    by apply store_contains_exact in Hc.
Qed.

Lemma fold_keeps_id stmts schema a a' s :
  a !! KStr "id" = Some (OStr s) →
  fold_stmts stmts a schema = inr a' →
  a' !! KStr "id" = Some (OStr s).
Proof.
  intros Hid Hfold. destruct schema as [sch|].
  - by apply (fold_schema_keeps_id sch stmts a a' s).
  - destruct (fold_no_schema_lookup stmts a) as (a2 & Hf & _ & _ & Hs).
    rewrite Hf in Hfold. injection Hfold as <-. by rewrite Hs.
Qed.

Lemma elem_of_store_predicate_objects s T p o :
  (p, o) ∈ store_predicate_objects s T ↔ (s, p, o) ∈ T.
Proof.
  unfold store_predicate_objects. rewrite elem_of_unique, list_elem_of_fmap. split.
  - intros ([[s' p'] o'] & [= -> ->] & Hin). apply elem_of_store_triples in Hin as [Hin Hm].
    apply matches_subject in Hm. unfold subject_of in Hm. simpl in Hm. by subst.
  - intros Hin. exists (s, p, o). split; [done|].
    apply elem_of_store_triples. split; [done|]. by apply matches_subject.
Qed.

Lemma NoDup_store_predicate_objects s T : NoDup (store_predicate_objects s T).
Proof. apply NoDup_unique. Qed.

Lemma decode_subject_inr T item schema m :
  decode_subject T item schema = inr m →
  ∃ a', fold_stmts (store_predicate_objects item T) (id_attrs item) schema = inr a'
        ∧ m = dict_to_builtins
                (dict_items
                   (KStr "id" :: omap (λ po, stmt_key po.1 schema)
                                   (store_predicate_objects item T)) a').
Proof.
  unfold decode_subject, subject_items.
  destruct (fold_stmts _ _ _) as [e|a']; [done|]. intros [= <-]. eauto.
Qed.

Lemma written_key T item schema k :
  k ∈ omap (λ po, stmt_key po.1 schema) (store_predicate_objects item T) →
  match schema with
  | Some _ => ∃ f, k = KStr f
  | None => ∃ p o, k = KRef p ∧ p ≠ RDF_type ∧ (item, p, o) ∈ T
  end.
Proof.
  intros Hk. apply list_elem_of_omap in Hk as ([p o] & Hin & Hkey). simpl in Hkey.
  destruct schema as [sch|]; [by eapply stmt_key_schema|].
  unfold stmt_key in Hkey. destruct (bool_decide (p = RDF_type)) eqn:Hp; [done|].
  apply bool_decide_eq_false in Hp. injection Hkey as <-.
  exists p, o. split_and!; [done|done|]. by apply elem_of_store_predicate_objects.
Qed.

Lemma decode_subject_id T item schema m :
  decode_subject T item schema = inr m →
  id_kept schema T item →
  m !! "id" = Some (PAtom (SStr (node_str item))).
Proof.
  intros Hdec Hkept. apply decode_subject_inr in Hdec as (a' & Hfold & ->).
  etrans; [apply (dict_lookup_unique _ _ (KStr "id"))|].
  - intros k' Hk' _ Heq. apply elem_of_cons in Hk' as [->|Hk']; [done|].
    apply written_key in Hk'. destruct schema as [sch|].
    + destruct Hk' as [f ->]. simpl in Heq. by subst.
    + destruct Hk' as (p & o & -> & _ & Hin). simpl in Heq.
      by destruct (Hkept eq_refl p o Hin).
  - intros _. left.
  - by rewrite (fold_keeps_id _ _ _ _ (node_str item) (lookup_singleton_eq _ _) Hfold).
Qed.

Lemma collect_Forall2 {A B} (f : A → exn + B) (l : list A) ys :
  collect f l = inr ys → Forall2 (λ x y, f x = inr y) l ys.
Proof.
  revert ys. induction l as [|x l IH]; intros ys; simpl.
  - intros [= <-]. constructor.
  - destruct (f x) as [e|y] eqn:Hx; [done|].
    destruct (collect f l) as [e|ys']; [done|]. intros [= <-].
    constructor; [done|]. by apply IH.
Qed.

(** X4 ([to_builtin]).  Whenever [to_builtin] returns, the resolver returned
    a pool on the same arguments and the list holds one mapping per subject
    of the pool, in the order the pool is enumerated.  Each mapping holds
    under ["id"] the text of its subject when a schema is given, and with no
    schema when no predicate of the subject has the text ["id"]. *)
Theorem to_builtin_one_mapping_per_subject (w : world) (g : graph_ref)
    (identifier : option string) (schema : option Schema) (ms : list (gmap string pyval))
    (w' : world) :
  to_builtin g identifier schema w = (inr ms, w') →
  ∃ id_pool, _get_subjects g identifier schema w = (inr id_pool, w)
    ∧ length ms = size id_pool
    ∧ Forall2 (λ item m, id_kept schema (triples_of w g) item →
                         m !! "id" = Some (PAtom (SStr (node_str item))))
        (elements id_pool) ms.
Proof.
  rewrite to_builtin_run.
  pose proof (read_only_get_subjects g identifier schema w) as Hro.
  destruct (_get_subjects g identifier schema w) as [[e|id_pool] w1]; simpl in *; [done|].
  subst w1. intros [= Hc _]. exists id_pool. split; [done|].
  apply collect_Forall2 in Hc.
  assert (Forall2 (λ item m, id_kept schema (triples_of w g) item →
                             m !! "id" = Some (PAtom (SStr (node_str item))))
            (elements id_pool) ms) as H2.
  { eapply Forall2_impl; [exact Hc|]. intros item m. apply decode_subject_id. }
  split; [|done]. apply Forall2_length in H2. by rewrite <- H2.
Qed.

(** X7 ([_update_attrs_from_stmt]).  Under a schema, a predicate other than
    [rdf:type] that [ref_mapping] and [attrs] do not take to a field makes the
    update raise [KeyError]; a statement list that holds such a statement is
    never folded to a mapping, wherever in the list it stands. *)
Theorem fold_unmapped_predicate (sch : Schema) (a : gmap dkey pyobj)
    (stmts : list (node * node)) (p v : node) :
  p ≠ RDF_type →
  ref_mapping sch !! p ≫= (λ f, attrs sch !! f) = None →
  (∃ key, _update_attrs_from_stmt p v a (Some sch) = inl (Exn KeyError key))
  ∧ ((p, v) ∈ stmts → ∃ e, fold_stmts stmts a (Some sch) = inl e).
Proof.
  intros Hp Hm.
  assert (∀ a0, ∃ key, _update_attrs_from_stmt p v a0 (Some sch) = inl (Exn KeyError key))
    as Hstep.
  { intros a0. unfold _update_attrs_from_stmt. rewrite bool_decide_eq_false_2 by done.
    destruct (ref_mapping sch !! p) as [f|]; simpl in Hm; [|eauto].
    rewrite Hm. eauto. }
  split; [apply Hstep|].
  revert a. induction stmts as [|[q u] stmts IH]; intros a Hin;
    [by apply elem_of_nil in Hin|].
  simpl. apply elem_of_cons in Hin as [[= <- <-]|Hin].
  - destruct (Hstep a) as (key & ->). eauto.
  - destruct (_update_attrs_from_stmt q u a (Some sch)) as [e|a1]; [eauto|]. by apply IH.
Qed.





Lemma values_of_spec p (l : list (node * node)) :
  (∀ o, o ∈ values_of p l ↔ (p, o) ∈ l) ∧ (NoDup l → NoDup (values_of p l)).
Proof.
  unfold values_of. split.
  - intros o. rewrite list_elem_of_fmap. split.
    + intros ([p' o'] & -> & Hin). apply list_elem_of_filter in Hin as [Hp Hin].
      simpl in Hp. by subst.
    + intros Hin. exists (p, o). split; [done|]. by apply list_elem_of_filter.
  - intros Hnd. apply NoDup_fmap_2_strong; [|by apply NoDup_filter].
    intros [p1 o1] [p2 o2] H1 H2. simpl. intros ->.
    apply list_elem_of_filter in H1 as [H1 _]. apply list_elem_of_filter in H2 as [H2 _].
    simpl in *. by subst.
Qed.

Lemma to_builtin_raw_returns g i w :
  i ≠ "" →
  has_subject (make_ref i) (triples_of w g) →
  ∃ m, to_builtin g (Some i) None w = (inr [m], w).
Proof.
  intros Hi Hs. rewrite to_builtin_identifier_run, get_subjects_by_identifier by done.
  apply store_contains_subject in Hs. rewrite Hs. simpl.
  unfold decode_subject, subject_items.
  destruct (fold_no_schema_lookup (store_predicate_objects (make_ref i) (triples_of w g))
              (id_attrs (make_ref i))) as (a' & Hf & _).
  rewrite Hf. eauto.
Qed.

Lemma elem_of_dict_items_tail (k0 : dkey) ws (d : gmap dkey pyobj) k v :
  (k, v) ∈ omap (λ k, (λ v, (k, v)) <$> d !! k) (unique_from [k0] ws)
  ↔ k ∈ ws ∧ k ≠ k0 ∧ d !! k = Some v.
Proof.
  rewrite list_elem_of_omap. split.
  - intros (k' & Hin & Hk). apply (proj2 (unique_from_spec ws [k0])) in Hin as [Hin Hne].
    destruct (d !! k') as [v'|] eqn:Hd; simpl in Hk; [|done].
    injection Hk as -> ->. split_and!; [done| |done].
    intros ->. apply Hne. left.
  - intros (Hin & Hne & Hd). exists k. split; [|by rewrite Hd].
    apply (proj2 (unique_from_spec ws [k0])). split; [done|].
    by apply not_elem_of_cons; split; [|apply not_elem_of_nil].
Qed.

(** X9 ([to_builtin]).  Decoding an identified subject with no schema gives
    one mapping, keyed by texts.  ["id"] holds the identifier when no
    predicate of the subject has the text ["id"]; there is no entry for
    [rdf:type] when no other predicate has its text.  A predicate that alone
    has its text gives the entry under that text: it groups exactly the
    distinct objects the graph states for the subject and the predicate (no
    entry for none, the bare value for one, a list for several); when its
    text is ["id"] and it has objects, this entry stands in place of the
    identifier. *)
Theorem to_builtin_identifier_raw (w : world) (g : graph_ref) (i : string) :
  i ≠ "" →
  has_subject (make_ref i) (triples_of w g) →
  ∃ m, to_builtin g (Some i) None w = (inr [m], w)
    ∧ (id_kept None (triples_of w g) (make_ref i) → m !! "id" = Some (PAtom (SStr i)))
    ∧ ((∀ q o, (make_ref i, q, o) ∈ triples_of w g →
          node_str q = node_str RDF_type → q = RDF_type) →
       m !! node_str RDF_type = None)
    ∧ ∀ p, p ≠ RDF_type → own_text (triples_of w g) (make_ref i) p →
        ∃ vs, NoDup vs
              ∧ (∀ o, o ∈ vs ↔ (make_ref i, p, o) ∈ triples_of w g)
              ∧ (node_str p ≠ "id" ∨ vs ≠ [] →
                 m !! node_str p = obj_to_builtin <$> grouped vs).
Proof.
  intros Hi Hs. rewrite to_builtin_identifier_run, get_subjects_by_identifier by done.
  apply store_contains_subject in Hs. rewrite Hs. simpl.
  destruct (decode_subject (triples_of w g) (make_ref i) None) as [e|m] eqn:Hdec.
  { exfalso. unfold decode_subject, subject_items in Hdec.
    destruct (fold_no_schema_lookup (store_predicate_objects (make_ref i) (triples_of w g))
                (id_attrs (make_ref i))) as (a' & Hf & _).
    by rewrite Hf in Hdec. }
  exists m. split; [done|].
  pose proof (decode_subject_id _ _ _ _ Hdec) as Hid.
  apply decode_subject_inr in Hdec as (a' & Hfold & ->).
  set (stmts := store_predicate_objects (make_ref i) (triples_of w g)) in *.
  set (ws := omap (λ po, stmt_key po.1 None) stmts) in *.
  destruct (fold_no_schema_lookup stmts (id_attrs (make_ref i)))
    as (a2 & Hf & Hl & Ht & Hstr).
  rewrite Hf in Hfold. injection Hfold as ->.
  assert (∀ k, k ∈ ws → ∃ p o, k = KRef p ∧ p ≠ RDF_type
                              ∧ (make_ref i, p, o) ∈ triples_of w g) as Hws.
  { intros k Hk. by apply (written_key _ _ None) in Hk. }
  assert (∀ p, p ≠ RDF_type → a' !! KRef p = grouped (values_of p stmts)) as Hgroup.
  { intros p Hp. rewrite Hl by done. unfold id_attrs.
    rewrite lookup_singleton_ne by done. by rewrite foldl_absorb_grouped. }
  assert (∀ p, is_Some (a' !! KRef p) → KRef p ∈ ws) as Hdom.
  { intros p Hp. destruct (fold_keys stmts None (KRef p) _ _ Hf Hp) as [Hin|Hin]; [|done].
    unfold id_attrs in Hin. rewrite lookup_singleton_ne in Hin by done. by destruct Hin. }
  split_and!.
  - exact Hid.
  - intros Honly. apply dict_to_builtins_None. intros k v Hin Heq.
    apply elem_of_dict_items in Hin as [Hk Hv].
    apply elem_of_cons in Hk as [->|Hk]; [discriminate Heq|].
    destruct (Hws k Hk) as (q & o & -> & Hq & Hin). simpl in Heq.
    by apply Hq, (Honly q o).
  - intros p Hp Hown. exists (values_of p stmts). split_and!.
    + apply values_of_spec, NoDup_store_predicate_objects.
    + intros o. rewrite (proj1 (values_of_spec p stmts)).
      apply elem_of_store_predicate_objects.
    + assert (∀ k', k' ∈ ws → key_str k' = node_str p → k' = KRef p) as Huniq.
      { intros k' Hk' Heq. destruct (Hws k' Hk') as (q & o & -> & Hq & Hin).
        simpl in Heq. by rewrite (Hown q o Hin Hq Heq). }
      destruct (decide (node_str p = "id")) as [Hpid|Hpid].
      * intros [?|Hne]; [done|].
        rewrite <- Hgroup by done.
        destruct (a' !! KRef p) as [v|] eqn:Hv;
          [|rewrite Hgroup in Hv by done; by destruct (values_of p stmts) as [|? [|? ?]]].
        unfold dict_items. change (unique (KStr "id" :: ws))
          with (KStr "id" :: unique_from [KStr "id"] ws).
        cbn [omap list_omap]. rewrite Hstr. unfold id_attrs at 1.
        rewrite lookup_singleton_eq. cbn [fmap option_fmap option_map].
        rewrite dict_to_builtins_cons.
        change (node_str p) with (key_str (KRef p)).
        rewrite (dict_to_builtins_Some _ (KRef p) v); [done| |].
        -- apply elem_of_dict_items_tail. split_and!; [apply Hdom; by rewrite Hv|done|done].
        -- intros k' v' Hin' Heq. apply elem_of_dict_items_tail in Hin' as (Hk' & _ & Hv').
           rewrite (Huniq k' Hk' Heq) in Hv' |- *. split; [done|congruence].
      * intros _. rewrite <- Hgroup by done.
        change (node_str p) with (key_str (KRef p)).
        apply dict_lookup_unique.
        -- intros k' Hk' _ Heq. apply elem_of_cons in Hk' as [->|Hk'];
             [simpl in Heq; congruence|]. by apply Huniq.
        -- intros Hsome. right. by apply Hdom.
Qed.

Lemma sub_graph_statements g i w :
  has_subject (make_ref i) (triples_of w g) →
  ∃ w', sub_graph g i w = (inr (fresh (dom (graphs w))), w')
        ∧ triples_of w' (fresh (dom (graphs w)))
          = about_subject (make_ref i) <$> store_predicate_objects (make_ref i) (triples_of w g).
Proof.
  intros Hs. rewrite sub_graph_run.
  apply store_contains_subject in Hs as Hc. rewrite Hc.
  set (sub := fresh (dom (graphs w))).
  set (w1 := World (<[sub := []]> (graphs w)) (bnodes w)).
  destruct (for_each_Graph_add sub (sub_statements (make_ref i) (triples_of w g)) w1)
    as (w' & Hrun & Htr & _).
  rewrite Hrun. exists w'. split; [done|].
  assert (sub_statements (make_ref i) (triples_of w g) ≠ []) as Hne.
  { destruct Hs as (p & o & Hin). intros Hnil.
    assert ((make_ref i, p, o) ∈ sub_statements (make_ref i) (triples_of w g)) as H'
      by (by apply sub_statements_spec).
    rewrite Hnil in H'. by apply elem_of_nil in H'. }
  rewrite (Htr Hne). unfold w1. rewrite triples_of_insert_eq.
  rewrite foldl_store_add_NoDup; [done|]. apply sub_statements_spec.
Qed.

(** X10 ([sub_graph]).  Once [sub_graph] has returned a subgraph, extracting
    the subgraph of the same identifier from it succeeds too: it returns a
    new graph with the same statements, and leaves the first subgraph as it
    was. *)
Theorem sub_graph_twice (w w1 : world) (g sub : graph_ref) (i : string) :
  sub_graph g i w = (inr sub, w1) →
  ∃ sub2 w2, sub_graph sub i w1 = (inr sub2, w2)
    ∧ sub2 ≠ sub
    ∧ triples_of w2 sub2 = triples_of w1 sub
    ∧ triples_of w2 sub = triples_of w1 sub.
Proof.
  intros H1.
  destruct (has_subject_cases (make_ref i) (triples_of w g)) as [Hs|Hn];
    [|by rewrite (sub_graph_missing w g i Hn) in H1].
  destruct (sub_graph_statements g i w Hs) as (w1' & Hrun1 & HT1).
  rewrite Hrun1 in H1. injection H1 as <- <-.
  assert (has_subject (make_ref i) (triples_of w1' (fresh (dom (graphs w))))) as Hs1.
  { destruct Hs as (p & o & Hin). exists p, o. rewrite HT1.
    apply list_elem_of_fmap. exists (p, o). split; [done|].
    by apply elem_of_store_predicate_objects. }
  destruct (sub_graph_statements _ i w1' Hs1) as (w2' & Hrun2 & HT2).
  pose proof (sub_graph_found w1' _ i Hs1) as (sub' & w2'' & Hrun2' & _ & Hne & Hoth & _).
  rewrite Hrun2 in Hrun2'. injection Hrun2' as <- <-.
  eexists _, _. split; [exact Hrun2|]. split_and!.
  - done.
  - rewrite HT2, HT1.
    by rewrite (store_predicate_objects_about _ _ (NoDup_store_predicate_objects _ _)).
  - unfold triples_of. by rewrite Hoth.
Qed.

(** X11 ([sub_graph], [to_builtin]).  For a non-empty identifier, decoding
    the identifier in its extracted subgraph gives the same outcome, mapping
    or exception, as decoding it in the parent graph, with any schema or
    none. *)
Theorem to_builtin_of_sub_graph (w w1 : world) (g sub : graph_ref) (i : string)
    (schema : option Schema) :
  i ≠ "" →
  sub_graph g i w = (inr sub, w1) →
  (to_builtin sub (Some i) schema w1).1 = (to_builtin g (Some i) schema w).1.
Proof.
  intros Hi H1.
  destruct (has_subject_cases (make_ref i) (triples_of w g)) as [Hs|Hn];
    [|by rewrite (sub_graph_missing w g i Hn) in H1].
  destruct (sub_graph_statements g i w Hs) as (w1' & Hrun1 & HT1).
  rewrite Hrun1 in H1. injection H1 as <- <-.
  set (P := store_predicate_objects (make_ref i) (triples_of w g)) in *.
  assert (NoDup P) as Hnd by apply NoDup_store_predicate_objects.
  assert (decode_subject (triples_of w1' (fresh (dom (graphs w)))) (make_ref i) schema
          = decode_subject (triples_of w g) (make_ref i) schema) as Hdec.
  { unfold decode_subject, subject_items.
    by rewrite HT1, (store_predicate_objects_about _ _ Hnd). }
  assert (∀ sch, store_contains (Some (make_ref i), Some RDF_type, Some (rdf_resource sch))
                   (triples_of w1' (fresh (dom (graphs w))))
                 = store_contains (Some (make_ref i), Some RDF_type, Some (rdf_resource sch))
                     (triples_of w g)) as Htyped.
  { intros sch. apply eq_true_iff_eq. rewrite !store_contains_exact, HT1.
    rewrite <- (elem_of_store_predicate_objects (make_ref i) (triples_of w g)).
    rewrite list_elem_of_fmap. split.
    - intros ([p o] & [= -> ->] & Hin). done.
    - intros Hin. by exists (RDF_type, rdf_resource sch). }
  assert (store_contains (Some (make_ref i), None, None)
            (triples_of w1' (fresh (dom (graphs w)))) = true) as Hsub.
  { destruct Hs as (p & o & Hin). apply store_contains_subject. exists p, o.
    rewrite HT1. apply list_elem_of_fmap. exists (p, o). split; [done|].
    by apply elem_of_store_predicate_objects. }
  apply store_contains_subject in Hs.
  rewrite !to_builtin_identifier_run, !get_subjects_by_identifier by done.
  rewrite Hsub, Hs, Hdec.
  destruct schema as [sch|]; [rewrite Htyped|].
  - destruct (store_contains (Some (make_ref i), Some RDF_type, Some (rdf_resource sch))
                (triples_of w g)); simpl; [|done].
    by destruct (decode_subject (triples_of w g) (make_ref i) (Some sch)).
  - simpl. by destruct (decode_subject (triples_of w g) (make_ref i) None).
Qed.

(** * Encoding: outcomes, growth and normal forms *)

Lemma bind_ret_unit (c : M unit) w : bind c (λ _, ret tt) w = c w.
Proof. unfold bind. by destruct (c w) as [[e|[]] w']. Qed.

Lemma for_each_app {A} (f : A → M unit) (l1 l2 : list A) w :
  for_each f (l1 ++ l2) w = bind (for_each f l1) (λ _, for_each f l2) w.
Proof.
  revert w. induction l1 as [|x l1 IH]; intros w; [done|].
  simpl. unfold bind. destruct (f x w) as [[e|[]] w1]; [done|].
  rewrite IH. by unfold bind.
Qed.

Lemma describer_add_value_flat d info v : ∀ w,
  _describer_add_value d v info w
  = for_each (λ a, _describer_add_value d (PAtom a) info) (flatten v) w.
Proof.
  induction v as [|a|items IH] using pyval_nested_ind; intros w.
  - done.
  - change (flatten (PAtom a)) with [a]. cbn [for_each]. by rewrite bind_ret_unit.
  - change (_describer_add_value d (PList items) info)
      with (for_each (λ item, _describer_add_value d item info) items).
    change (flatten (PList items)) with (concat (map flatten items)).
    revert w. induction IH as [|x items Hx _ IHl]; intros w; [done|].
    cbn [for_each map concat]. rewrite for_each_app. unfold bind at 1 2.
    rewrite Hx.
    destruct (for_each _ (flatten x) w) as [[e|[]] w1]; [done|]. apply IHl.
Qed.

(** X12 ([_describer_add_value]).  The emitter depends on a value only
    through the sequence of its scalars: two values that flatten to the same
    scalars run alike, however they nest lists and [None]; a value that holds
    no scalar leaves the world as it was. *)
Theorem describer_add_value_flattens (d : Describer) (info : FieldInfo) (v1 v2 : pyval)
    (w : world) :
  flatten v1 = flatten v2 →
  _describer_add_value d v1 info w = _describer_add_value d v2 info w
  ∧ (flatten v1 = [] → _describer_add_value d v1 info w = (inr tt, w)).
Proof.
  intros Heq. rewrite !describer_add_value_flat, Heq. split; [done|].
  intros Hnil. by rewrite Hnil.
Qed.

Lemma emit_field_present s d f info v w :
  st_attrs s !! f = Some v →
  emit_field s d (f, info) w = _describer_add_value d v info w.
Proof.
  intros Hv. unfold emit_field, bind, get_key_or_attribute_strict. simpl.
  by rewrite Hv.
Qed.

Lemma emit_field_missing s d f info w :
  st_attrs s !! f = None →
  emit_field s d (f, info) w = (inl (Exn KeyError f), w).
Proof.
  intros Hv. unfold emit_field, bind, get_key_or_attribute_strict. simpl.
  by rewrite Hv.
Qed.

Lemma forallb_accepted k l :
  forallb (accepted k) l = true ↔ Forall (λ a, accepted k a = true) l.
Proof.
  induction l as [|a l IH]; simpl; [by split; [constructor|]|].
  rewrite andb_true_iff, Forall_cons, IH. done.
Qed.

Lemma emit_fields_outcome s d (fields : list (string * FieldInfo)) : ∀ w,
  (∃ w', for_each (emit_field s d) fields w = (inr tt, w')) ↔
  (∀ f info, (f, info) ∈ fields →
     ∃ v, st_attrs s !! f = Some v
          ∧ Forall (λ a, accepted (range info) a = true) (flatten v)).
Proof.
  induction fields as [|[f info] fields IH]; intros w.
  - split; [|by exists w]. intros _ f info Hin. by apply elem_of_nil in Hin.
  - cbn [for_each]. unfold bind. destruct (st_attrs s !! f) as [v|] eqn:Hv.
    + rewrite (emit_field_present _ _ _ _ _ _ Hv).
      destruct (describer_add_value_spec d info v w) as (objs & w1 & -> & _).
      unfold emitter_outcome.
      destruct (forallb (accepted (range info)) (flatten v)) eqn:Hall.
      * rewrite IH. split.
        -- intros Hrest f' info' Hin. apply elem_of_cons in Hin as [[= -> ->]|Hin].
           ++ exists v. split; [done|]. by apply forallb_accepted.
           ++ by apply Hrest.
        -- intros Hok f' info' Hin. apply Hok. by right.
      * split; [by intros [w' [=]]|]. intros Hok.
        destruct (Hok f info) as (v' & Hv' & Hacc); [left|].
        assert (v' = v) as -> by congruence.
        apply forallb_accepted in Hacc. congruence.
    + rewrite (emit_field_missing _ _ _ _ _ Hv).
      split; [by intros [w' [=]]|]. intros Hok.
      destruct (Hok f info) as (v' & Hv' & _); [left|]. congruence.
Qed.

Lemma emit_fields_raises s d (fields : list (string * FieldInfo)) f info w :
  (f, info) ∈ fields → st_attrs s !! f = None →
  ∃ e w', for_each (emit_field s d) fields w = (inl e, w').
Proof.
  intros Hin Hnone.
  destruct (for_each (emit_field s d) fields w) as [[e|[]] w'] eqn:Hrun; [eauto|].
  exfalso.
  pose proof (proj1 (emit_fields_outcome s d fields w) (ex_intro _ w' Hrun)) as Hok.
  destruct (Hok f info Hin) as (v & Hv & _). congruence.
Qed.

Lemma triples_of_same_graphs w w' g :
  graphs w' = graphs w → triples_of w' g = triples_of w g.
Proof. unfold triples_of. by intros ->. Qed.

Lemma emit_field_fits r d f info v w :
  st_attrs r !! f = Some v → Forall (fits (range info)) (flatten v) →
  ∃ w', emit_field r d (f, info) w = (inr tt, w')
        ∧ triples_of w' (d_graph d)
          = foldl (λ g t, store_add t g) (triples_of w (d_graph d))
              (about_subject (d_about d) <$> field_stmts r (f, info))
        ∧ (∀ g, g ≠ d_graph d → triples_of w' g = triples_of w g).
Proof.
  intros Hv Hfit. rewrite (emit_field_present _ _ _ _ _ _ Hv).
  destruct (describer_add_value_accepted d info v w (Forall_fits_accepted _ _ Hfit))
    as (objs & w' & -> & H2 & [Hem Hoth]).
  exists w'. split; [done|].
  rewrite (Forall2_emits_encode _ _ _ Hfit H2) in Hem. split.
  - rewrite Hem, add_objects_stmts. unfold field_stmts. simpl.
    rewrite (get_key_or_attribute_Some _ _ _ Hv). do 2 f_equal.
    symmetry. apply (list_fmap_compose (encode (range info)) (λ o, (ref info, o))).
  - intros g Hg. apply triples_of_ext. by apply Hoth.
Qed.

Lemma emit_fields_fits r d (fields : list (string * FieldInfo)) :
  (∀ f info, (f, info) ∈ fields →
     ∃ v, st_attrs r !! f = Some v ∧ Forall (fits (range info)) (flatten v)) →
  ∀ w, ∃ w', for_each (emit_field r d) fields w = (inr tt, w')
             ∧ triples_of w' (d_graph d)
               = foldl (λ g t, store_add t g) (triples_of w (d_graph d))
                   (about_subject (d_about d) <$> (fields ≫= field_stmts r))
             ∧ (∀ g, g ≠ d_graph d → triples_of w' g = triples_of w g).
Proof.
  induction fields as [|[f info] fields IH]; intros Hc w.
  - exists w. by split_and!.
  - destruct (Hc f info) as (v & Hv & Hcv); [left|].
    destruct (emit_field_fits r d f info v w Hv Hcv) as (w1 & Hrun1 & Ht1 & Ho1).
    destruct (IH (λ f' info' Hin, Hc f' info' (list_elem_of_further _ _ _ Hin)) w1)
      as (w2 & Hrun2 & Ht2 & Ho2).
    exists w2. split_and!.
    + cbn [for_each]. unfold bind at 1. rewrite Hrun1. exact Hrun2.
    + rewrite Ht2, Ht1, bind_cons, fmap_app, foldl_app. done.
    + intros g Hg. by rewrite Ho2, Ho1.
Qed.

Lemma foldl_store_add_absorbed (ts : list triple) : ∀ g,
  (∀ t, t ∈ ts → t ∈ g) → foldl (λ g t, store_add t g) g ts = g.
Proof.
  induction ts as [|t ts IH]; intros g Hall; [done|]. simpl.
  assert (store_add t g = g) as ->.
  { unfold store_add. rewrite bool_decide_eq_true_2; [done|]. apply Hall. left. }
  apply IH. intros t' Hin. apply Hall. by right.
Qed.

Lemma foldl_store_add_twice (ts : list triple) g :
  foldl (λ g t, store_add t g) (foldl (λ g t, store_add t g) g ts) ts
  = foldl (λ g t, store_add t g) g ts.
Proof.
  apply foldl_store_add_absorbed. intros t Hin.
  apply (proj2 (foldl_store_add_spec ts g)). by right.
Qed.






Section EncoderRuns.

Variable validate_schema : struct → Schema → option exn.

Lemma from_struct_loop s schema graph identifier w sch :
  chosen_schema validate_schema s schema = inr sch →
  instance_id_of s ≠ PNone →
  castable (instance_id_of s) = true →
  ∃ w2,
    from_struct validate_schema s schema graph identifier w
    = (match (for_each (emit_field s {| d_graph := target_graph graph w;
                                         d_about := subject_for (instance_id_of s) w |})
                (name_mapping sch) w2).1 with
       | inl e => inl e
       | inr _ => inr (target_graph graph w)
       end,
       (for_each (emit_field s {| d_graph := target_graph graph w;
                                   d_about := subject_for (instance_id_of s) w |})
          (name_mapping sch) w2).2)
    ∧ triples_of w2 (target_graph graph w)
      = store_add (subject_for (instance_id_of s) w, RDF_type, rdf_resource sch)
          (triples_of w (target_graph graph w))
    ∧ (∀ g, g ≠ target_graph graph w → triples_of w2 g = triples_of w g).
Proof.
  intros Hsch Hid Hcast. rewrite (from_struct_with_id _ _ _ _ _ _ _ Hsch Hid).
  set (w0 := with_target graph w). set (g0 := target_graph graph w).
  set (subject := subject_for (instance_id_of s) w).
  destruct (Describer_new_run g0 (instance_id_of s) w0 Hcast) as (w1 & Hd & Hg1).
  unfold bind at 1. rewrite Hd.
  assert (subject_for (instance_id_of s) w0 = subject) as ->.
  { unfold subject, subject_for, w0. by destruct graph. }
  set (d := {| d_graph := g0; d_about := subject |}).
  unfold bind at 1.
  destruct (Graph_add_emitted d RDF_type (rdf_resource sch) w1) as (w2 & Hadd & [Hem1 Hem2]).
  unfold rdftype. rewrite Hadd. exists w2.
  assert (∀ g, triples_of w1 g = triples_of w g) as Hw1.
  { intros g. rewrite (triples_of_same_graphs _ _ _ Hg1). unfold w0.
    apply triples_of_with_target. }
  split_and!.
  - unfold bind at 1. by destruct (for_each (emit_field s d) (name_mapping sch) w2) as [[e|[]] w3].
  - unfold d in Hem1. simpl in Hem1. rewrite Hem1. by rewrite Hw1.
  - intros g Hg. rewrite <- Hw1. apply triples_of_ext. by apply Hem2.
Qed.

(** X13 ([from_struct]).  The encoder returns a graph exactly when a schema
    is chosen without an exception, the record's identifier is not [None] and
    is a value the describer takes as a subject (not an integer other than
    [0]), and every field of the schema is present in the record and holds
    only scalars the emitter accepts (no integer other than [0] in a
    relation field); the graph it returns is the one passed in, or the fresh
    one when none was passed. *)
Theorem from_struct_returns_iff (s : struct) (schema : option Schema)
    (graph : option graph_ref) (identifier : option string) (w : world) :
  ((∃ g, (from_struct validate_schema s schema graph identifier w).1 = inr g) ↔
   (∃ sch, chosen_schema validate_schema s schema = inr sch
           ∧ instance_id_of s ≠ PNone ∧ castable (instance_id_of s) = true
           ∧ fields_emittable s sch))
  ∧ (∀ g, (from_struct validate_schema s schema graph identifier w).1 = inr g →
          g = target_graph graph w).
Proof.
  destruct (chosen_schema validate_schema s schema) as [e|sch] eqn:Hsch.
  { rewrite (from_struct_no_schema _ _ _ _ _ _ _ Hsch). simpl.
    split; [|by intros g [=]]. split; [by intros [g [=]]|by intros (sch & [=] & _)]. }
  assert (instance_id_of s = PNone ∨ instance_id_of s ≠ PNone) as [Hid|Hid]
    by (destruct (instance_id_of s); [left|right|right]; done).
  { rewrite (from_struct_no_id _ _ _ _ _ _ _ Hsch Hid). simpl.
    split; [|by intros g [=]].
    split; [by intros [g [=]]|by intros (sch' & _ & Hne & _)]. }
  destruct (castable (instance_id_of s)) eqn:Hcast.
  2:{ rewrite (from_struct_refused _ _ _ _ _ _ _ Hsch Hid Hcast). simpl.
      split; [|by intros g [=]].
      split; [by intros [g [=]]|by intros (sch' & _ & _ & [=] & _)]. }
  destruct (from_struct_loop s schema graph identifier w sch Hsch Hid Hcast) as (w2 & -> & _).
  simpl. set (d := {| d_graph := _; d_about := _ |}).
  pose proof (emit_fields_outcome s d (name_mapping sch) w2) as Hiff.
  destruct (for_each (emit_field s d) (name_mapping sch) w2) as [[e|[]] w3] eqn:Hloop;
    simpl.
  - split; [|by intros g [=]]. split; [by intros [g [=]]|].
    intros (sch' & [= <-] & _ & _ & Hall).
    destruct (proj2 Hiff Hall) as (w' & [=]).
  - split; [|by intros g [= <-]]. split; [|eauto].
    intros _. exists sch. split_and!; [done|done|done|].
    exact (proj1 Hiff (ex_intro _ w3 eq_refl)).
Qed.

(** X14 ([from_struct]).  Whatever the outcome, the encoder removes no
    statement from any graph, and only the target graph can gain
    statements. *)
Theorem from_struct_only_adds (s : struct) (schema : option Schema)
    (graph : option graph_ref) (identifier : option string) (w : world) :
  (∀ g t, t ∈ triples_of w g →
     t ∈ triples_of (from_struct validate_schema s schema graph identifier w).2 g)
  ∧ (∀ g t, t ∈ triples_of (from_struct validate_schema s schema graph identifier w).2 g →
       t ∈ triples_of w g ∨ g = target_graph graph w).
Proof.
  destruct (chosen_schema validate_schema s schema) as [e|sch] eqn:Hsch.
  { rewrite (from_struct_no_schema _ _ _ _ _ _ _ Hsch). simpl. split; auto. }
  assert (instance_id_of s = PNone ∨ instance_id_of s ≠ PNone) as [Hid|Hid]
    by (destruct (instance_id_of s); [left|right|right]; done).
  { rewrite (from_struct_no_id _ _ _ _ _ _ _ Hsch Hid). simpl.
    split; intros g t; rewrite triples_of_with_target; auto. }
  destruct (castable (instance_id_of s)) eqn:Hcast.
  2:{ rewrite (from_struct_refused _ _ _ _ _ _ _ Hsch Hid Hcast). simpl.
      split; intros g t; rewrite triples_of_with_target; auto. }
  destruct (from_struct_outcome validate_schema s schema graph identifier w sch Hsch Hid
              Hcast) as (r & w' & -> & [Ha Hb] & _).
  simpl. split; [exact Ha|]. intros g t Ht. destruct (Hb g t Ht) as [?|[? _]]; auto.
Qed.

(** X15 ([from_struct]).  When the record lacks a field of the chosen
    schema, and its identifier is a value the describer takes as a subject,
    the encoder raises, and the type statement of the subject, written before
    the fields are read, stays in the target graph. *)
Theorem from_struct_missing_field (s : struct) (schema : option Schema)
    (graph : option graph_ref) (identifier : option string) (w : world)
    (sch : Schema) (f : string) (info : FieldInfo) :
  chosen_schema validate_schema s schema = inr sch →
  instance_id_of s ≠ PNone →
  castable (instance_id_of s) = true →
  (f, info) ∈ name_mapping sch →
  st_attrs s !! f = None →
  (∃ e, (from_struct validate_schema s schema graph identifier w).1 = inl e)
  ∧ (subject_for (instance_id_of s) w, RDF_type, rdf_resource sch)
      ∈ triples_of (from_struct validate_schema s schema graph identifier w).2
          (target_graph graph w).
Proof.
  intros Hsch Hid Hcast Hin Hnone.
  destruct (from_struct_loop s schema graph identifier w sch Hsch Hid Hcast)
    as (w2 & -> & Htype & _).
  set (d := {| d_graph := _; d_about := _ |}). simpl.
  destruct (emit_fields_raises s d _ f info w2 Hin Hnone) as (e & w' & Hr).
  pose proof (emit_fields_grows s d (name_mapping sch) w2) as [Hmono _].
  rewrite Hr in *. simpl in *. split; [eauto|].
  apply Hmono. change (d_graph d) with (target_graph graph w). rewrite Htype.
  apply elem_of_store_add. by right.
Qed.

Lemma from_struct_fits_run r schema graph identifier w sch i :
  chosen_schema validate_schema r schema = inr sch →
  instance_id_of r = PAtom (SStr i) → i ≠ "" →
  record_fits r sch →
  ∃ w', from_struct validate_schema r schema graph identifier w
        = (inr (target_graph graph w), w')
        ∧ triples_of w' (target_graph graph w)
          = foldl (λ g t, store_add t g) (triples_of w (target_graph graph w))
              (about_subject (URIRef i) <$> record_stmts r sch)
        ∧ (∀ g, g ≠ target_graph graph w → triples_of w' g = triples_of w g).
Proof.
  intros Hsch Hid Hi Hfit.
  assert (instance_id_of r ≠ PNone) as Hid' by (by rewrite Hid).
  assert (castable (instance_id_of r) = true) as Hcast by (by rewrite Hid).
  destruct (from_struct_loop r schema graph identifier w sch Hsch Hid' Hcast)
    as (w2 & -> & Htype & Hoth).
  assert (subject_for (instance_id_of r) w = URIRef i) as Hsub.
  { unfold subject_for. rewrite Hid. simpl. by rewrite bool_decide_eq_false_2. }
  rewrite Hsub in *.
  set (d := {| d_graph := _; d_about := _ |}).
  destruct (emit_fields_fits r d (name_mapping sch) Hfit w2) as (w3 & Hrun & Ht & Ho).
  rewrite Hrun. simpl. exists w3. split_and!; [done| |].
  - change (d_graph d) with (target_graph graph w) in Ht. rewrite Ht, Htype. done.
  - intros g Hg. rewrite Ho by done. by apply Hoth.
Qed.

(** X16 ([from_struct]).  For a record whose identifier is a non-empty text
    and whose field values fit their value kinds (non-empty texts in relation
    fields), encoding it a second time into the same graph changes no
    graph. *)
Theorem from_struct_twice (r : struct) (schema : option Schema) (g : graph_ref)
    (identifier : option string) (w : world) (sch : Schema) (i : string) :
  chosen_schema validate_schema r schema = inr sch →
  instance_id_of r = PAtom (SStr i) → i ≠ "" →
  record_fits r sch →
  ∃ w1 w2,
    from_struct validate_schema r schema (Some g) identifier w = (inr g, w1)
    ∧ from_struct validate_schema r schema (Some g) identifier w1 = (inr g, w2)
    ∧ ∀ g', triples_of w2 g' = triples_of w1 g'.
Proof.
  intros Hsch Hid Hi Hfit.
  destruct (from_struct_fits_run r schema (Some g) identifier w sch i Hsch Hid Hi Hfit)
    as (w1 & Hrun1 & Ht1 & Ho1).
  destruct (from_struct_fits_run r schema (Some g) identifier w1 sch i Hsch Hid Hi Hfit)
    as (w2 & Hrun2 & Ht2 & Ho2).
  unfold target_graph in *. exists w1, w2. split_and!; [done|done|].
  intros g'. destruct (decide (g' = g)) as [->|Hne]; [|by apply Ho2].
  rewrite Ht2, Ht1. apply foldl_store_add_twice.
Qed.







End EncoderRuns.

(** * Resolved terms and shared graphs *)

(** X19 ([_get_subjects]).  Every term of a pool the resolver returns is a
    URI reference, never a blank node or a literal. *)
Theorem get_subjects_only_uris (w w' : world) (g : graph_ref) (identifier : option string)
    (schema : option Schema) (id_pool : gset node) :
  _get_subjects g identifier schema w = (inr id_pool, w') →
  ∀ x, x ∈ id_pool → is_uri x.
Proof.
  intros Hrun x Hx. destruct (truthy_id identifier) eqn:Ht.
  - destruct identifier as [i|]; [|done].
    assert (i ≠ "") as Hi.
    { intros ->. by vm_compute in Ht. }
    rewrite get_subjects_by_identifier in Hrun by done.
    destruct (store_contains (Some (make_ref i), None, None) (triples_of w g)); [|done].
    assert (id_pool = {[ make_ref i ]}) as ->.
    { destruct schema as [sch|]; [|by injection Hrun as <-].
      destruct (store_contains _ (triples_of w g)); [by injection Hrun as <-|done]. }
    apply elem_of_singleton in Hx as ->. exact I.
  - rewrite get_subjects_by_type in Hrun by done. injection Hrun as <- _.
    apply elem_of_list_to_set, list_elem_of_fmap in Hx as (s & -> & _). exact I.
Qed.





Section SharedGraph.

Variable validate_schema : struct → Schema → option exn.


End SharedGraph.

(** * Further worked instances *)

Lemma alice_only_person s o :
  (s, RDF_type, o) ∈ triples_of w_alice 0 → o = URIRef "ex:Person".
Proof.
  intros Hin. change (triples_of w_alice 0) with alice_statements in Hin.
  unfold alice_statements in Hin.
  repeat (apply elem_of_cons in Hin as [Hin|Hin]; [by injection Hin|]).
  by apply elem_of_nil in Hin.
Defined.

Lemma alice_fits : record_fits alice Person.
Proof.
  intros f info Hin. unfold Person in Hin. simpl in Hin.
  repeat (apply elem_of_cons in Hin as [Hin|Hin]; [injection Hin as -> ->|]).
  - exists (PAtom (SStr "Alice")). split; [vm_compute; reflexivity|].
    repeat constructor.
  - exists (PList [PAtom (SStr "ex:bob"); PAtom (SStr "ex:carol")]).
    split; [vm_compute; reflexivity|].
    repeat constructor; eexists; (split; [reflexivity|discriminate]).
  - by apply elem_of_nil in Hin.
Defined.







Lemma get_subjects_typed_alice :
  _get_subjects 0 (Some "ex:alice") (Some Person) w_alice
  = (inr {[ make_ref "ex:alice" ]}, w_alice).
Proof.
  apply (get_subjects_typed_identifier w_alice 0 "ex:alice" Person); [discriminate|].
  vm_compute. left.
Defined.

Lemma to_builtin_alice_no_robot : to_builtin 0 None (Some Robot) w_alice = (inr [], w_alice).
Proof.
  apply (to_builtin_nothing_typed w_alice 0 None (Some Robot)); [reflexivity|].
  intros s o Hin. exists Robot. split; [reflexivity|].
  rewrite (alice_only_person s o Hin). discriminate.
Defined.

Lemma to_builtin_alice_single :
  (∀ ms w', to_builtin 0 (Some "ex:alice") (Some Person) w_alice = (inr ms, w') →
     ∃ m, ms = [m])
  ∧ (∀ e w', to_builtin 0 (Some "ex:alice")
               (Some (struct_schema PersonCls (Some Person))) w_alice = (inl e, w') →
       to_struct 0 "ex:alice" PersonCls (Some Person) w_alice = (inl e, w')).
Proof.
  apply (to_builtin_identifier_single w_alice 0 "ex:alice" (Some Person) PersonCls).
  discriminate.
Defined.

Lemma to_builtin_alice_one_mapping :
  ∃ ms id_pool,
    to_builtin 0 (Some "ex:alice") None w_alice = (inr ms, w_alice)
    ∧ _get_subjects 0 (Some "ex:alice") None w_alice = (inr id_pool, w_alice)
    ∧ length ms = size id_pool
    ∧ Forall2 (λ item m, id_kept None (triples_of w_alice 0) item →
                         m !! "id" = Some (PAtom (SStr (node_str item))))
        (elements id_pool) ms.
Proof.
  destruct (to_builtin_raw_returns 0 "ex:alice" w_alice ltac:(discriminate) alice_is_subject)
    as [m Hm].
  destruct (to_builtin_one_mapping_per_subject w_alice 0 (Some "ex:alice") None [m] w_alice Hm)
    as (id_pool & Hpool).
  exists [m], id_pool. split; [exact Hm|exact Hpool].
Defined.

Lemma fold_age_unmapped :
  (∃ key, _update_attrs_from_stmt (URIRef "ex:age") (Literal (SInt 30) None) ∅ (Some Person)
          = inl (Exn KeyError key))
  ∧ ∃ e, fold_stmts [ (URIRef "ex:name", Literal (SStr "Alice") None);
                      (URIRef "ex:age", Literal (SInt 30) None) ] ∅ (Some Person) = inl e.
Proof.
  destruct (fold_unmapped_predicate Person ∅
              [ (URIRef "ex:name", Literal (SStr "Alice") None);
                (URIRef "ex:age", Literal (SInt 30) None) ]
              (URIRef "ex:age") (Literal (SInt 30) None)) as [Hstep Hfold].
  - discriminate.
  - vm_compute. reflexivity.
  - split; [exact Hstep|]. apply Hfold. right. left.
Defined.

Lemma to_struct_empty_identifier_robot :
  to_struct 0 "" PersonCls (Some Robot) w_alice
  = (inl (Exn IndexError "list index out of range"), w_alice).
Proof.
  apply (to_struct_empty_identifier w_alice 0 PersonCls (Some Robot)).
  intros s Hin. apply alice_only_person in Hin. discriminate Hin.
Defined.

Lemma to_struct_carol_and_robot :
  to_struct 0 "ex:carol" PersonCls None w_alice
  = (inl (Exn ValueError ("Identifier: " +:+ "ex:carol" +:+ " not in graph")), w_alice)
  ∧ to_struct 0 "ex:alice" PersonCls (Some Robot) w_alice
    = (inl (Exn ValueError
              ("Object identified by id: " +:+ "ex:alice" +:+ " is not of type: "
               +:+ node_str (rdf_resource (struct_schema PersonCls (Some Robot)))
               +:+ " in graph")), w_alice).
Proof.
  split.
  - apply (proj1 (to_struct_resolver_errors w_alice 0 "ex:carol" PersonCls None
                    ltac:(discriminate))).
    exact carol_is_no_subject.
  - apply (proj2 (to_struct_resolver_errors w_alice 0 "ex:alice" PersonCls (Some Robot)
                    ltac:(discriminate))).
    + exact alice_is_subject.
    + exact alice_is_no_robot.
Defined.


Lemma to_builtin_alice_raw_content :
  ∃ m, to_builtin 0 (Some "ex:alice") None w_alice = (inr [m], w_alice)
    ∧ (id_kept None (triples_of w_alice 0) (make_ref "ex:alice") →
       m !! "id" = Some (PAtom (SStr "ex:alice")))
    ∧ ((∀ q o, (make_ref "ex:alice", q, o) ∈ triples_of w_alice 0 →
          node_str q = node_str RDF_type → q = RDF_type) →
       m !! node_str RDF_type = None)
    ∧ ∀ p, p ≠ RDF_type → own_text (triples_of w_alice 0) (make_ref "ex:alice") p →
        ∃ vs, NoDup vs
              ∧ (∀ o, o ∈ vs ↔ (make_ref "ex:alice", p, o) ∈ triples_of w_alice 0)
              ∧ (node_str p ≠ "id" ∨ vs ≠ [] →
                 m !! node_str p = obj_to_builtin <$> grouped vs).
Proof.
  apply (to_builtin_identifier_raw w_alice 0 "ex:alice"); [discriminate|].
  exact alice_is_subject.
Defined.

(** A predicate with the text ["id"] takes the place of the identifier. *)
Example to_builtin_id_predicate :
  entries_of (to_builtin 0 (Some "ex:alice") None w_id_predicate)
  = inr [ [ ("id", PAtom (SStr "ex:zzz")) ] ].
Proof. vm_compute. reflexivity. Qed.

Lemma sub_graph_alice_twice :
  ∃ sub2 w2, sub_graph 1 "ex:alice" w_alice_sub = (inr sub2, w2)
    ∧ sub2 ≠ 1
    ∧ triples_of w2 sub2 = triples_of w_alice_sub 1
    ∧ triples_of w2 1 = triples_of w_alice_sub 1.
Proof.
  apply (sub_graph_twice w_alice w_alice_sub 0 1 "ex:alice"). vm_compute. reflexivity.
Defined.

Lemma to_builtin_alice_sub_graph :
  (to_builtin 1 (Some "ex:alice") (Some Person) w_alice_sub).1
  = (to_builtin 0 (Some "ex:alice") (Some Person) w_alice).1.
Proof.
  apply (to_builtin_of_sub_graph w_alice w_alice_sub 0 1 "ex:alice" (Some Person));
    [discriminate|]. vm_compute. reflexivity.
Defined.

Lemma describer_add_value_nested :
  _describer_add_value alice_describer
    (PList [PList [PAtom (SStr "Alice")]; PNone; PAtom (SStr "Al")]) name_info w_alice
  = _describer_add_value alice_describer
      (PList [PAtom (SStr "Alice"); PAtom (SStr "Al")]) name_info w_alice
  ∧ _describer_add_value alice_describer (PList [PNone; PList []]) name_info w_alice
    = (inr tt, w_alice).
Proof.
  split.
  - apply (describer_add_value_flattens alice_describer name_info
             (PList [PList [PAtom (SStr "Alice")]; PNone; PAtom (SStr "Al")])
             (PList [PAtom (SStr "Alice"); PAtom (SStr "Al")]) w_alice).
    reflexivity.
  - apply (proj2 (describer_add_value_flattens alice_describer name_info
                    (PList [PNone; PList []]) (PList [PNone; PList []]) w_alice
                    eq_refl)).
    reflexivity.
Defined.

Lemma from_struct_alice_returns :
  (∃ sch, chosen_schema accept alice (Some Person) = inr sch
          ∧ instance_id_of alice ≠ PNone ∧ castable (instance_id_of alice) = true
          ∧ fields_emittable alice sch)
  ∧ 0 = target_graph None w_empty.
Proof.
  destruct (from_struct_returns_iff accept alice (Some Person) None None w_empty)
    as [Hiff Hg].
  split.
  - apply Hiff. exists 0. vm_compute. reflexivity.
  - apply Hg. vm_compute. reflexivity.
Defined.

Lemma from_struct_alice_keeps_blank :
  (BNode "b1", RDF_type, URIRef "ex:Person")
    ∈ triples_of (from_struct accept alice (Some Person) (Some 0) None w_blank).2 0.
Proof.
  apply (proj1 (from_struct_only_adds accept alice (Some Person) (Some 0) None w_blank)).
  vm_compute. left.
Defined.

Lemma from_struct_alice_partial :
  (∃ e, (from_struct accept alice_partial (Some Person) None None w_empty).1 = inl e)
  ∧ (subject_for (instance_id_of alice_partial) w_empty, RDF_type, rdf_resource Person)
      ∈ triples_of (from_struct accept alice_partial (Some Person) None None w_empty).2
          (target_graph None w_empty).
Proof.
  apply (from_struct_missing_field accept alice_partial (Some Person) None None w_empty
           Person "friends" knows_info).
  - reflexivity.
  - intros Hid. vm_compute in Hid. discriminate Hid.
  - reflexivity.
  - right. left.
  - vm_compute. reflexivity.
Defined.

Lemma from_struct_alice_twice :
  ∃ w1 w2,
    from_struct accept alice (Some Person) (Some 0) None w_blank = (inr 0, w1)
    ∧ from_struct accept alice (Some Person) (Some 0) None w1 = (inr 0, w2)
    ∧ ∀ g', triples_of w2 g' = triples_of w1 g'.
Proof.
  apply (from_struct_twice accept alice (Some Person) 0 None w_blank Person "ex:alice").
  - reflexivity.
  - vm_compute. reflexivity.
  - discriminate.
  - exact alice_fits.
Defined.



Lemma get_subjects_alice_is_uri : is_uri (make_ref "ex:alice").
Proof.
  apply (get_subjects_only_uris w_alice w_alice 0 (Some "ex:alice") (Some Person)
           {[ make_ref "ex:alice" ]}).
  - vm_compute. reflexivity.
  - apply elem_of_singleton. reflexivity.
Defined.

